(** * miniredis: sorted-set and cluster command handlers

    A shallow embedding of [cmd_cluster.go] (the CLUSTER stubs followed by the
    sorted-set commands ZADD, ZCARD, ZCOUNT, ZRANGE, ZREVRANGE, ZRANGEBYLEX,
    ZRANGEBYSCORE, ZREVRANGEBYSCORE, ZRANK, ZREVRANK, ZREM, ZSCORE) and of the
    pure range helpers [withSSRange], [withLexRange], [parseFloatRange],
    [parseLexrange], [reverseSlice] and [reverseElems].

    Conventions.
    - Go [float64] is Rocq's primitive binary64 [float]; Go [int] is [Z];
      Go [string] is [string] (a sequence of bytes, compared bytewise).
    - A handler is a function [State -> State]: the state holds the server
      (databases, listening address), the connection context (selected
      database, dirty flag) and the replies written so far.
    - Library functions of Go and constants of the repository that the file
      only uses ([strconv.ParseFloat], [strconv.Atoi], [strings.ToLower],
      [strings.ToUpper], [formatFloat], the message constants) and the order
      in which Go iterates over a map are the fields of the class [GoEnv]:
      every statement holds for all of them.
    - The database accessors ([db.exists], [db.t], [db.zadd], ...), [withTx],
      [setDirty] and [redisRange] live in other files of the repository;
      they are modelled from the specification and marked as such. *)

From Stdlib Require Import Floats ZArith String Ascii.
From Stdlib Require Import OrderedTypeEx.
From stdpp Require Import gmap strings list fin_maps pretty sorting.

Local Open Scope string_scope.
Local Open Scope list_scope.
Local Open Scope Z_scope.

(** ** The environment: what the file calls but does not define *)

Class GoEnv := {
  (** [strconv.ParseFloat(s, 64)]; [None] when [err != nil]. *)
  ParseFloat : string → option float;
  (** [strconv.Atoi(s)]; [None] when [err != nil]. *)
  Atoi : string → option Z;
  (** [strings.ToLower], [strings.ToUpper]. *)
  ToLower : string → string;
  ToUpper : string → string;
  (** [formatFloat], the repository's float printer. *)
  formatFloat : float → string;
  (** The order in which [for member, score := range elems] visits the
      entries of a map; Go leaves it unspecified. *)
  mapRange : gmap string float → list (string * float);
  (** The message constants [msgSyntaxError], [msgInvalidMinMax],
      [msgInvalidInt], [msgInvalidRangeItem] and [ErrWrongType.Error()]. *)
  msgSyntaxError : string;
  msgInvalidMinMax : string;
  msgInvalidInt : string;
  msgInvalidRangeItem : string;
  msgWrongType : string;
}.

(** ** Floats and strings as Go compares them *)

(** [a >= b] and [a > b] on [float64] (IEEE: both false when a NaN is
    involved). *)
Definition fge (a b : float) : bool := PrimFloat.leb b a.
Definition fgt (a b : float) : bool := PrimFloat.ltb b a.

(** [a >= b] and [a > b] on Go strings: bytewise lexicographic. *)
Definition sge (a b : string) : bool := String.leb b a.
Definition sgt (a b : string) : bool := String.ltb b a.

(** ** Sorted-set elements *)

(** [ssElem]: one (member, score) pair of a sorted set; [ssElems] is a slice
    of them. *)
Record ssElem := SSElem { member : string; score : float }.

(** ** Slices *)

(** Index of the first element on which [p] holds, [None] if there is none:
    the scan [for i, m := range members { if p(m) { ...; break } }]. *)
Fixpoint firstIndex {A} (p : A → bool) (l : list A) : option nat :=
  match l with
  | [] => None
  | x :: l' => if p x then Some O else S <$> firstIndex p l'
  end.

(** [for i, m := range members { if p(m) { members = members[i:]; break } }]:
    when no element matches, the loop ends without touching [members]. *)
Definition sliceFromFirst {A} (p : A → bool) (members : list A) : list A :=
  match firstIndex p members with
  | Some i => drop i members
  | None => members
  end.

(** [for i, m := range members { if p(m) { members = members[:i]; break } }]. *)
Definition sliceToFirst {A} (p : A → bool) (members : list A) : list A :=
  match firstIndex p members with
  | Some i => take i members
  | None => members
  end.

(** [o[lo:hi]] for [0 <= lo <= hi <= len(o)] (Go panics outside that range;
    every caller below stays inside it). *)
Definition slice {A} (o : list A) (lo hi : nat) : list A :=
  take (hi - lo) (drop lo o).

(** [o[i], o[j] = o[j], o[i]]. *)
Definition swap {A} (o : list A) (i j : nat) : list A :=
  match o !! i, o !! j with
  | Some x, Some y => <[i:=y]> (<[j:=x]> o)
  | _, _ => o
  end.

(** The loop shared by [reverseSlice] and [reverseElems]:
    [for i := range make([]struct{}, len(o)/2) { other := len(o) - 1 - i; swap }]. *)
Definition reverseInPlace {A} (o : list A) : list A :=
  foldl (λ o i, swap o i (length o - 1 - i)%nat) o (seq 0 (length o / 2)%nat).

Definition reverseSlice (o : list string) : list string := reverseInPlace o.
Definition reverseElems (o : list ssElem) : list ssElem := reverseInPlace o.

(** ** The range engine *)

(** [withSSRange] limits a list of sorted set elements by the ZRANGEBYSCORE
    range logic. *)
Definition withSSRange (members : list ssElem)
    (min : float) (minIncl : bool) (max : float) (maxIncl : bool) : list ssElem :=
  let members :=
    if minIncl then sliceFromFirst (λ m, fge (score m) min) members
    else sliceFromFirst (λ m, fgt (score m) min) members in
  if maxIncl then sliceToFirst (λ m, fgt (score m) max) members
  else sliceToFirst (λ m, fge (score m) max) members.

(** [withLexRange] limits a list of sorted set elements. *)
Definition withLexRange (members : list string)
    (min : string) (minIncl : bool) (max : string) (maxIncl : bool) : list string :=
  if String.eqb max "-" || String.eqb min "+" then []
  else
    let members :=
      if negb (String.eqb min "-") then
        if minIncl then sliceFromFirst (λ m, sge m min) members
        else sliceFromFirst (λ m, sgt m min) members
      else members in
    if negb (String.eqb max "+") then
      if maxIncl then sliceToFirst (λ m, sgt m max) members
      else sliceToFirst (λ m, sge m max) members
    else members.

(** The LIMIT block of [cmdZrangebylex] and of [makeCmdZrangebyscore] (the
    same statements on [[]string] and on [ssElems]), entered when
    [withLimit] is set. *)
Definition applyLimit {A} (members : list A) (limitStart limitEnd : Z) : list A :=
  if limitStart <? 0 then []
  else
    let members :=
      if limitStart <? Z.of_nat (length members)
      then drop (Z.to_nat limitStart) members
      else [] in
    if 0 <=? limitEnd then
      if limitEnd <? Z.of_nat (length members)
      then take (Z.to_nat limitEnd) members
      else members
    else members.

(** ** Parsing of range bounds *)

Section Parsing.
Context `{GoEnv}.

(** [parseFloatRange] handles ZRANGEBYSCORE floats. They are inclusive
    unless the string starts with '('. [None] is a non-nil [err]. *)
Definition parseFloatRange (s : string) : option (float * bool) :=
  match s with
  | EmptyString => Some (0%float, false)
  | String c rest =>
      if Ascii.eqb c "("
      then f ← ParseFloat rest; Some (f, false)
      else f ← ParseFloat s; Some (f, true)
  end.

(** [parseLexrange] handles ZRANGEBYLEX ranges. They start with '[', '(',
    or are '+' or '-'. [None] is [errInvalidRangeItem]. *)
Definition parseLexrange (s : string) : option (string * bool) :=
  match s with
  | EmptyString => None
  | String c rest =>
      if String.eqb s "+" || String.eqb s "-" then Some (s, false)
      else if Ascii.eqb c "(" then Some (rest, false)
      else if Ascii.eqb c "[" then Some (rest, true)
      else None
  end.
End Parsing.

(** ** Replies *)

(** What a handler writes to the client. [redeo.Responder] and [server.Peer]
    name the same reply kinds differently: an error ([WriteErrorString],
    [WriteError]), an integer ([WriteInt], [WriteZero]), an array header
    ([WriteBulkLen], [WriteLen]), a bulk string ([WriteString], [WriteBulk])
    and nil ([WriteNil]). *)
Inductive reply :=
| RError (msg : string)
| RInt (n : Z)
| RLen (n : Z)
| RBulk (s : string)
| RNil.

(** ** The keyspace *)

(** Modelled from the spec: the typed values a key can hold (section 3,
    Database: string, list, set, hash, ordered set); an ordered set is a
    mapping from member to score. The type declarations are not in the
    file. *)
Inductive value :=
| VString (s : string)
| VList (l : list string)
| VSet (s : gset string)
| VHash (h : gmap string string)
| VZset (ss : gmap string float).

(** One logical database: a mapping from key name to typed value. *)
Abbreviation RedisDB := (gmap string value).

(** Modelled from the spec: [db.exists(key)] (section 4.3). *)
Definition db_exists (db : RedisDB) (key : string) : bool :=
  match db !! key with Some _ => true | None => false end.

(** Modelled from the spec: [db.t(key)], the type tag of the value of [key]
    (section 4.3); the handlers compare it with ["zset"]. *)
Definition db_t (db : RedisDB) (key : string) : string :=
  match db !! key with
  | Some (VString _) => "string"
  | Some (VList _) => "list"
  | Some (VSet _) => "set"
  | Some (VHash _) => "hash"
  | Some (VZset _) => "zset"
  | None => ""
  end.

(** The member-to-score mapping of [key]; empty when the key holds no
    ordered set. *)
Definition zsetOf (db : RedisDB) (key : string) : gmap string float :=
  match db !! key with
  | Some (VZset ss) => ss
  | _ => ∅
  end.

(** Modelled from the spec: [db.zadd(key, score, member)] (section 4.1, add):
    inserts or updates, creating the set on the first add; returns true only
    if [member] did not previously exist in the set. *)
Definition zadd (db : RedisDB) (key : string) (sc : float) (mem : string)
    : RedisDB * bool :=
  let ss := zsetOf db key in
  (<[key := VZset (<[mem := sc]> ss)]> db,
   match ss !! mem with Some _ => false | None => true end).

(** Modelled from the spec: [db.zrem(key, member)] (section 4.1, remove):
    removes a member and reports whether it existed; the key is deleted with
    its last member. *)
Definition zrem (db : RedisDB) (key : string) (mem : string) : RedisDB * bool :=
  let ss := zsetOf db key in
  match ss !! mem with
  | None => (db, false)
  | Some _ =>
      let ss' := delete mem ss in
      (if decide (ss' = ∅) then delete key db else <[key := VZset ss']> db, true)
  end.

(** Modelled from the spec: [db.zcard(key)] (section 4.1, cardinality). *)
Definition zcard (db : RedisDB) (key : string) : Z :=
  Z.of_nat (size (zsetOf db key)).

(** Modelled from the spec: [db.zexists(key, member)] and
    [db.zscore(key, member)] (section 4.1, scoreOf). *)
Definition zexists (db : RedisDB) (key mem : string) : bool :=
  match zsetOf db key !! mem with Some _ => true | None => false end.

Definition zscore (db : RedisDB) (key mem : string) : float :=
  default 0%float (zsetOf db key !! mem).

(** Modelled from the spec: the canonical ordering (section 3): score
    ascending, members of equal score by member string comparison. *)
Definition elemLess (a b : ssElem) : bool :=
  if PrimFloat.eqb (score a) (score b)
  then String.ltb (member a) (member b)
  else PrimFloat.ltb (score a) (score b).

Fixpoint insertElem (e : ssElem) (l : list ssElem) : list ssElem :=
  match l with
  | [] => [e]
  | x :: l' => if elemLess e x then e :: l else x :: insertElem e l'
  end.

Definition sortElems (l : list ssElem) : list ssElem := foldr insertElem [] l.

(** Modelled from the spec: [db.zelements(key)] and [db.zmembers(key)]
    (section 4.1): snapshots of the set in canonical order, with and without
    the scores. *)
Definition zelements (db : RedisDB) (key : string) : list ssElem :=
  sortElems ((λ kv, SSElem kv.1 kv.2) <$> map_to_list (zsetOf db key)).

Definition zmembers (db : RedisDB) (key : string) : list string :=
  member <$> zelements db key.

(** Index of the first occurrence of [x], as an [int]. *)
Definition indexOf (x : string) (l : list string) : option Z :=
  Z.of_nat <$> firstIndex (String.eqb x) l.

(** The two directions of [zrank]. *)
Inductive direction := asc | desc.

(** Modelled from the spec: [db.zrank(key, member, direction)] (section 4.1,
    rankOf): the 0-based position in canonical order, or in its reverse;
    [None] when the member is not found. *)
Definition zrank (db : RedisDB) (key mem : string) (d : direction) : option Z :=
  match d with
  | asc => indexOf mem (zmembers db key)
  | desc => indexOf mem (reverse (zmembers db key))
  end.

(** Modelled from the spec: [redisRange(l, start, end, false)], the shared
    index normalisation (section 4.2, rank range): negative indices count from
    the end ([-1] is the last element), indices are clamped into
    [[0, length]], and the window is empty when start is past end or at or
    beyond the length. The result is used as [v[rs:re]]: [end] is inclusive,
    [re] exclusive. *)
Definition redisRange (l start end_ : Z) : Z * Z :=
  let fromEnd i := if i <? 0 then l + i else i in
  let clamp i := Z.max 0 (Z.min l i) in
  let rs := clamp (fromEnd start) in
  let re := clamp (fromEnd end_ + 1) in
  if (re <=? rs) || (l <=? rs) then (0, 0) else (rs, re).

(** ** The server and the connection *)

(** What a handler reads and changes: the server [m] (its databases and the
    address it listens on), the connection context [ctx] (selected database,
    dirty flag) and the replies written to the client, oldest first.
    [txEntered] counts the closures that [withTx] has run: it is not a field
    of the program, it records that the atomic section was entered. *)
Record State := mkState {
  dbs : gmap Z RedisDB;
  srvIP : string;
  srvPort : Z;
  selectedDB : Z;
  dirty : bool;
  replies : list reply;
  txEntered : nat;
}.

(** One reply primitive of the responder. *)
Definition write (r : reply) (st : State) : State :=
  mkState (dbs st) (srvIP st) (srvPort st) (selectedDB st) (dirty st)
          (replies st ++ [r]) (txEntered st).

Definition WriteErrorString (msg : string) : State → State := write (RError msg).
Definition WriteError (msg : string) : State → State := write (RError msg).
Definition WriteInt (n : Z) : State → State := write (RInt n).
Definition WriteZero : State → State := write (RInt 0).
Definition WriteBulkLen (n : Z) : State → State := write (RLen n).
Definition WriteLen (n : Z) : State → State := write (RLen n).
Definition WriteString (s : string) : State → State := write (RBulk s).
Definition WriteBulk (s : string) : State → State := write (RBulk s).
Definition WriteNil : State → State := write RNil.

(** Modelled from the spec: [setDirty(client)] marks the connection dirty
    (section 4.4). *)
Definition setDirty (st : State) : State :=
  mkState (dbs st) (srvIP st) (srvPort st) (selectedDB st) true
          (replies st) (txEntered st).

(** Modelled from the spec: [m.db(i)], the keyspace of database [i]
    (section 3, Database), and its write-back. *)
Definition getDB (i : Z) (st : State) : RedisDB := default ∅ (dbs st !! i).

Definition putDB (i : Z) (db : RedisDB) (st : State) : State :=
  mkState (<[i := db]> (dbs st)) (srvIP st) (srvPort st) (selectedDB st)
          (dirty st) (replies st) (txEntered st).

(** Modelled from the spec: [withTx(m, out, r, cb)] resolves the selected
    database index from the connection context and runs the closure with
    exclusive access to the state (section 4.4). The closure receives
    [ctx.selectedDB]. *)
Definition withTx (cb : Z → State → State) (st : State) : State :=
  cb (selectedDB st)
     (mkState (dbs st) (srvIP st) (srvPort st) (selectedDB st) (dirty st)
              (replies st) (S (txEntered st))).

(** The outcome of the argument checks that precede [withTx] in every
    handler: either the values the closure captures, or an early return that
    writes [msg], after [setDirty] when [markDirty] is set. *)
Inductive parsed (A : Type) :=
| Parsed (a : A)
| Malformed (markDirty : bool) (msg : string).
Arguments Parsed {A} a.
Arguments Malformed {A} markDirty msg.

(** A handler: the argument checks, then the closure under [withTx]. *)
Definition handle {A} (p : parsed A) (body : A → Z → State → State)
    (st : State) : State :=
  match p with
  | Parsed a => withTx (body a) st
  | Malformed markDirty msg =>
      WriteErrorString msg (if markDirty then setDirty st else st)
  end.

Definition wrongNumber (cmd : string) : string :=
  "ERR wrong number of arguments for '" +:+ cmd +:+ "' command".

(** ** CLUSTER *)

Section Cluster.
Context `{GoEnv}.

(** CLUSTER SLOTS *)
Definition cmdClusterSlots (cmd : string) (args : list string) : State → State :=
  withTx (λ _ st,
    let st := WriteLen 1 st in
    let st := WriteLen 3 st in
    let st := WriteInt 0 st in
    let st := WriteInt 16383 st in
    let st := WriteLen 3 st in
    let st := WriteBulk (srvIP st) st in
    let st := WriteInt (srvPort st) st in
    WriteBulk "09dbe9720cda62f7865eabc5fd8857c5d2678366" st).

(** CLUSTER KEYSLOT *)
Definition cmdClusterKeySlot (cmd : string) (args : list string) : State → State :=
  withTx (λ _ st, WriteInt 163 st).

(** CLUSTER NODES *)
Definition cmdClusterNodes (cmd : string) (args : list string) : State → State :=
  withTx (λ _ st,
    WriteBulk "e7d1eecce10fd6bb5eb35b9f99a514335d9ba9ca 127.0.0.1:7000@7000 myself,master - 0 0 1 connected 0-16383" st).

(** [cmdCluster] dispatches on the sub-command; [args[0]] is read only when
    [len(args)] is 1 or 2. *)
Definition cmdCluster (cmd : string) (args : list string) : State → State :=
  let sub := ToUpper (hd "" args) in
  if (length args =? 1)%nat && String.eqb sub "SLOTS" then
    cmdClusterSlots cmd args
  else if (length args =? 2)%nat && String.eqb sub "KEYSLOT" then
    cmdClusterKeySlot cmd args
  else if (length args =? 1)%nat && String.eqb sub "NODES" then
    cmdClusterNodes cmd args
  else λ st,
    let j := String.concat " " args in
    let err := "ERR 'CLUSTER " +:+ j +:+ "' not supported" in
    WriteError err (setDirty st).

End Cluster.

(** ** The sorted-set commands *)

Section SortedSet.
Context `{GoEnv}.

(** *** ZADD *)

(** The loop that fills [elems := map[string]float64{}] from the
    (score, member) pairs in argument order; [None] when a score does not
    parse. The caller has checked that [len(args)] is even, so the loop never
    sees a lone last argument. *)
Fixpoint zaddElems (args : list string) (elems : gmap string float)
    : option (gmap string float) :=
  match args with
  | s :: mem :: args' =>
      match ParseFloat s with
      | None => None
      | Some sc => zaddElems args' (<[mem := sc]> elems)
      end
  | _ => Some elems
  end.

Definition zaddArgs (rargs : list string) : parsed (string * gmap string float) :=
  match rargs with
  | key :: args =>
      if (length rargs <? 3)%nat then Malformed true (wrongNumber "zadd")
      else if negb (length args mod 2 =? 0)%nat then Malformed true msgSyntaxError
      else
        match zaddElems args ∅ with
        | None => Malformed true "ERR value is not a valid float"
        | Some elems => Parsed (key, elems)
        end
  | [] => Malformed true (wrongNumber "zadd")
  end.

(** [for member, score := range elems { if db.zadd(key, score, member) { added++ } }] *)
Definition zaddAll (key : string) (entries : list (string * float))
    (db : RedisDB) : RedisDB * Z :=
  foldl (λ acc e,
           let r := zadd acc.1 key e.2 e.1 in
           (r.1, if r.2 then acc.2 + 1 else acc.2))
        (db, 0) entries.

Definition zaddBody (a : string * gmap string float) (sel : Z) (st : State) : State :=
  let '(key, elems) := a in
  let db := getDB sel st in
  if db_exists db key && negb (String.eqb (db_t db key) "zset") then
    WriteErrorString msgWrongType st
  else
    let r := zaddAll key (mapRange elems) db in
    WriteInt r.2 (putDB sel r.1 st).

Definition cmdZadd (rargs : list string) : State → State :=
  handle (zaddArgs rargs) zaddBody.

(** *** ZCARD *)

Definition zcardArgs (rargs : list string) : parsed string :=
  match rargs with
  | [key] => Parsed key
  | _ => Malformed true (wrongNumber "zcard")
  end.

Definition zcardBody (key : string) (sel : Z) (st : State) : State :=
  let db := getDB sel st in
  if negb (db_exists db key) then WriteZero st
  else if negb (String.eqb (db_t db key) "zset") then
    WriteErrorString msgWrongType st
  else WriteInt (zcard db key) st.

Definition cmdZcard (rargs : list string) : State → State :=
  handle (zcardArgs rargs) zcardBody.

(** *** ZCOUNT *)

(** A key with a score range, as ZCOUNT and the by-score ranges parse it. *)
Record scoreRange := mkScoreRange {
  sr_key : string;
  sr_min : float;
  sr_minIncl : bool;
  sr_max : float;
  sr_maxIncl : bool;
}.

Definition zcountArgs (rargs : list string) : parsed scoreRange :=
  match rargs with
  | [key; a1; a2] =>
      match parseFloatRange a1 with
      | None => Malformed true msgInvalidMinMax
      | Some (min, minIncl) =>
          match parseFloatRange a2 with
          | None => Malformed true msgInvalidMinMax
          | Some (max, maxIncl) => Parsed (mkScoreRange key min minIncl max maxIncl)
          end
      end
  | _ => Malformed true (wrongNumber "zcount")
  end.

Definition zcountBody (a : scoreRange) (sel : Z) (st : State) : State :=
  let key := sr_key a in
  let db := getDB sel st in
  if negb (db_exists db key) then WriteZero st
  else if negb (String.eqb (db_t db key) "zset") then
    WriteErrorString msgWrongType st
  else
    let members := zelements db key in
    let members :=
      withSSRange members (sr_min a) (sr_minIncl a) (sr_max a) (sr_maxIncl a) in
    WriteInt (Z.of_nat (length members)) st.

Definition cmdZcount (rargs : list string) : State → State :=
  handle (zcountArgs rargs) zcountBody.

(** *** ZRANGE and ZREVRANGE *)

Record rankRange := mkRankRange {
  rr_key : string;
  rr_start : Z;
  rr_end : Z;
  rr_withScores : bool;
}.

(** [len(r.Args) < 3] is the last case; [len(r.Args) > 4] is the case of two
    or more trailing arguments, which writes the syntax error without
    [setDirty]; [len(r.Args) == 4] is the case of one. *)
Definition zrangeArgs (cmd : string) (rargs : list string) : parsed rankRange :=
  match rargs with
  | key :: a1 :: a2 :: rest =>
      match Atoi a1 with
      | None => Malformed true msgInvalidInt
      | Some start =>
          match Atoi a2 with
          | None => Malformed true msgInvalidInt
          | Some end_ =>
              match rest with
              | [] => Parsed (mkRankRange key start end_ false)
              | [opt] =>
                  if negb (String.eqb (ToLower opt) "withscores")
                  then Malformed true msgSyntaxError
                  else Parsed (mkRankRange key start end_ true)
              | _ :: _ :: _ => Malformed false msgSyntaxError
              end
          end
      end
  | _ => Malformed true (wrongNumber cmd)
  end.

(** [for _, el := range members { out.WriteString(el); if withScores {
    out.WriteString(formatFloat(db.zscore(key, el))) } }] *)
Definition writeMembers (withScores : bool) (db : RedisDB) (key : string)
    (members : list string) (st : State) : State :=
  foldl (λ st el,
           let st := WriteString el st in
           if withScores
           then WriteString (formatFloat (zscore db key el)) st
           else st)
        st members.

Definition zrangeBody (reverse : bool) (a : rankRange) (sel : Z) (st : State) : State :=
  let key := rr_key a in
  let db := getDB sel st in
  if negb (db_exists db key) then WriteBulkLen 0 st
  else if negb (String.eqb (db_t db key) "zset") then
    WriteErrorString msgWrongType st
  else
    let members := zmembers db key in
    let members := if reverse then reverseSlice members else members in
    let '(rs, re) := redisRange (Z.of_nat (length members)) (rr_start a) (rr_end a) in
    let st :=
      if rr_withScores a then WriteBulkLen ((re - rs) * 2) st
      else WriteBulkLen (re - rs) st in
    writeMembers (rr_withScores a) db key
                 (slice members (Z.to_nat rs) (Z.to_nat re)) st.

Definition makeCmdZrange (cmd : string) (reverse : bool) (rargs : list string)
    : State → State :=
  handle (zrangeArgs cmd rargs) (zrangeBody reverse).

(** *** ZRANGEBYLEX *)

Record lexRange := mkLexRange {
  lr_key : string;
  lr_min : string;
  lr_minIncl : bool;
  lr_max : string;
  lr_maxIncl : bool;
  (** [Some (limitStart, limitEnd)] when [withLimit] is set. *)
  lr_limit : option (Z * Z);
}.

(** The loop over the trailing arguments of ZRANGEBYLEX. A LIMIT with
    fewer than two arguments after it writes the syntax error without
    [setDirty]. *)
Fixpoint lexOptions (args : list string) (limit : option (Z * Z))
    : parsed (option (Z * Z)) :=
  match args with
  | [] => Parsed limit
  | a :: args' =>
      if String.eqb (ToLower a) "limit" then
        match args' with
        | s :: e :: rest =>
            match Atoi s with
            | None => Malformed true msgInvalidInt
            | Some limitStart =>
                match Atoi e with
                | None => Malformed true msgInvalidInt
                | Some limitEnd => lexOptions rest (Some (limitStart, limitEnd))
                end
            end
        | _ => Malformed false msgSyntaxError
        end
      else Malformed true msgSyntaxError
  end.

Definition zrangebylexArgs (rargs : list string) : parsed lexRange :=
  match rargs with
  | key :: a1 :: a2 :: args =>
      match parseLexrange a1 with
      | None => Malformed true msgInvalidRangeItem
      | Some (min, minIncl) =>
          match parseLexrange a2 with
          | None => Malformed true msgInvalidRangeItem
          | Some (max, maxIncl) =>
              match lexOptions args None with
              | Malformed d msg => Malformed d msg
              | Parsed limit => Parsed (mkLexRange key min minIncl max maxIncl limit)
              end
          end
      end
  | _ => Malformed true (wrongNumber "zrangebylex")
  end.

(** [sort.Strings]: insertion into bytewise ascending order. *)
Fixpoint insertString (s : string) (l : list string) : list string :=
  match l with
  | [] => [s]
  | x :: l' => if String.ltb s x then s :: l else x :: insertString s l'
  end.

Definition sortStrings (l : list string) : list string := foldr insertString [] l.

(** The members the closure of ZRANGEBYLEX writes. *)
Definition zrangebylexMembers (a : lexRange) (members : list string) : list string :=
  let members := sortStrings members in
  let members :=
    withLexRange members (lr_min a) (lr_minIncl a) (lr_max a) (lr_maxIncl a) in
  match lr_limit a with
  | Some (limitStart, limitEnd) => applyLimit members limitStart limitEnd
  | None => members
  end.

Definition zrangebylexBody (a : lexRange) (sel : Z) (st : State) : State :=
  let key := lr_key a in
  let db := getDB sel st in
  if negb (db_exists db key) then WriteBulkLen 0 st
  else if negb (String.eqb (db_t db key) "zset") then
    WriteErrorString msgWrongType st
  else
    let members := zrangebylexMembers a (zmembers db key) in
    let st := WriteBulkLen (Z.of_nat (length members)) st in
    foldl (λ st el, WriteString el st) st members.

Definition cmdZrangebylex (rargs : list string) : State → State :=
  handle (zrangebylexArgs rargs) zrangebylexBody.

(** *** ZRANGEBYSCORE and ZREVRANGEBYSCORE *)

Record scoreQuery := mkScoreQuery {
  sq_range : scoreRange;
  sq_withScores : bool;
  (** [Some (limitStart, limitEnd)] when [withLimit] is set. *)
  sq_limit : option (Z * Z);
}.

(** The loop over the trailing arguments of the by-score ranges: LIMIT with
    two integers, or WITHSCORES, in any order and number. A LIMIT with fewer
    than two arguments after it writes the syntax error without
    [setDirty]. *)
Fixpoint scoreOptions (args : list string) (withScores : bool)
    (limit : option (Z * Z)) : parsed (bool * option (Z * Z)) :=
  match args with
  | [] => Parsed (withScores, limit)
  | a :: args' =>
      if String.eqb (ToLower a) "limit" then
        match args' with
        | s :: e :: rest =>
            match Atoi s with
            | None => Malformed true msgInvalidInt
            | Some limitStart =>
                match Atoi e with
                | None => Malformed true msgInvalidInt
                | Some limitEnd =>
                    scoreOptions rest withScores (Some (limitStart, limitEnd))
                end
            end
        | _ => Malformed false msgSyntaxError
        end
      else if String.eqb (ToLower a) "withscores" then
        scoreOptions args' true limit
      else Malformed true msgSyntaxError
  end.

Definition zrangebyscoreArgs (cmd : string) (rargs : list string) : parsed scoreQuery :=
  match rargs with
  | key :: a1 :: a2 :: args =>
      match parseFloatRange a1 with
      | None => Malformed true msgInvalidMinMax
      | Some (min, minIncl) =>
          match parseFloatRange a2 with
          | None => Malformed true msgInvalidMinMax
          | Some (max, maxIncl) =>
              match scoreOptions args false None with
              | Malformed d msg => Malformed d msg
              | Parsed (withScores, limit) =>
                  Parsed (mkScoreQuery (mkScoreRange key min minIncl max maxIncl)
                                       withScores limit)
              end
          end
      end
  | _ => Malformed true (wrongNumber cmd)
  end.

(** The range step of the closure: with [reverse], [min, max = max, min] and
    [minIncl, maxIncl = maxIncl, minIncl] before [withSSRange], and
    [reverseElems] after it. *)
Definition zrangebyscoreRange (reverse : bool) (r : scoreRange)
    (members : list ssElem) : list ssElem :=
  let '(min, max) :=
    if reverse then (sr_max r, sr_min r) else (sr_min r, sr_max r) in
  let '(minIncl, maxIncl) :=
    if reverse then (sr_maxIncl r, sr_minIncl r) else (sr_minIncl r, sr_maxIncl r) in
  let members := withSSRange members min minIncl max maxIncl in
  if reverse then reverseElems members else members.

(** The elements the closure writes: the range step, then LIMIT. *)
Definition zrangebyscoreElems (reverse : bool) (a : scoreQuery)
    (members : list ssElem) : list ssElem :=
  let members := zrangebyscoreRange reverse (sq_range a) members in
  match sq_limit a with
  | Some (limitStart, limitEnd) => applyLimit members limitStart limitEnd
  | None => members
  end.

Definition zrangebyscoreBody (reverse : bool) (a : scoreQuery) (sel : Z)
    (st : State) : State :=
  let key := sr_key (sq_range a) in
  let db := getDB sel st in
  if negb (db_exists db key) then WriteBulkLen 0 st
  else if negb (String.eqb (db_t db key) "zset") then
    WriteErrorString msgWrongType st
  else
    let members := zrangebyscoreElems reverse a (zelements db key) in
    let n := Z.of_nat (length members) in
    let st := if sq_withScores a then WriteBulkLen (n * 2) st else WriteBulkLen n st in
    foldl (λ st el,
             let st := WriteString (member el) st in
             if sq_withScores a
             then WriteString (formatFloat (score el)) st
             else st)
          st members.

Definition makeCmdZrangebyscore (cmd : string) (reverse : bool)
    (rargs : list string) : State → State :=
  handle (zrangebyscoreArgs cmd rargs) (zrangebyscoreBody reverse).

(** *** ZRANK and ZREVRANK *)

Definition zrankArgs (cmd : string) (rargs : list string) : parsed (string * string) :=
  match rargs with
  | [key; mem] => Parsed (key, mem)
  | _ => Malformed true (wrongNumber cmd)
  end.

Definition zrankBody (reverse : bool) (a : string * string) (sel : Z)
    (st : State) : State :=
  let '(key, mem) := a in
  let db := getDB sel st in
  if negb (db_exists db key) then WriteNil st
  else if negb (String.eqb (db_t db key) "zset") then
    WriteErrorString msgWrongType st
  else
    let direction := if reverse then desc else asc in
    match zrank db key mem direction with
    | None => WriteNil st
    | Some rank => WriteInt rank st
    end.

Definition makeCmdZrank (cmd : string) (reverse : bool) (rargs : list string)
    : State → State :=
  handle (zrankArgs cmd rargs) (zrankBody reverse).

(** *** ZREM *)

Definition zremArgs (rargs : list string) : parsed (string * list string) :=
  match rargs with
  | key :: mem :: members => Parsed (key, mem :: members)
  | _ => Malformed true (wrongNumber "zrem")
  end.

(** [for _, member := range members { if db.zrem(key, member) { deleted++ } }] *)
Definition zremAll (key : string) (members : list string) (db : RedisDB)
    : RedisDB * Z :=
  foldl (λ acc mem,
           let r := zrem acc.1 key mem in
           (r.1, if r.2 then acc.2 + 1 else acc.2))
        (db, 0) members.

Definition zremBody (a : string * list string) (sel : Z) (st : State) : State :=
  let '(key, members) := a in
  let db := getDB sel st in
  if negb (db_exists db key) then WriteZero st
  else if negb (String.eqb (db_t db key) "zset") then
    WriteErrorString msgWrongType st
  else
    let r := zremAll key members db in
    WriteInt r.2 (putDB sel r.1 st).

Definition cmdZrem (rargs : list string) : State → State :=
  handle (zremArgs rargs) zremBody.

(** *** ZSCORE *)

Definition zscoreArgs (rargs : list string) : parsed (string * string) :=
  match rargs with
  | [key; mem] => Parsed (key, mem)
  | _ => Malformed true (wrongNumber "zscore")
  end.

Definition zscoreBody (a : string * string) (sel : Z) (st : State) : State :=
  let '(key, mem) := a in
  let db := getDB sel st in
  if negb (db_exists db key) then WriteNil st
  else if negb (String.eqb (db_t db key) "zset") then
    WriteErrorString msgWrongType st
  else if negb (zexists db key mem) then WriteNil st
  else WriteString (formatFloat (zscore db key mem)) st.

Definition cmdZscore (rargs : list string) : State → State :=
  handle (zscoreArgs rargs) zscoreBody.

(** *** The handler table *)

(** The names under which [commandsSortedSet] registers a handler. *)
Inductive verb :=
| ZADD | ZCARD | ZCOUNT | ZRANGE | ZRANGEBYLEX | ZRANGEBYSCORE | ZRANK | ZREM
| ZREVRANGE | ZREVRANGEBYSCORE | ZREVRANK | ZSCORE.

(** [commandsSortedSet] handles all sorted set operations. *)
Definition commandsSortedSet (v : verb) : list string → State → State :=
  match v with
  | ZADD => cmdZadd
  | ZCARD => cmdZcard
  | ZCOUNT => cmdZcount
  | ZRANGE => makeCmdZrange "zrange" false
  | ZRANGEBYLEX => cmdZrangebylex
  | ZRANGEBYSCORE => makeCmdZrangebyscore "zrangebyscore" false
  | ZRANK => makeCmdZrank "zrank" false
  | ZREM => cmdZrem
  | ZREVRANGE => makeCmdZrange "zrevrange" true
  | ZREVRANGEBYSCORE => makeCmdZrangebyscore "zrevrangebyscore" true
  | ZREVRANK => makeCmdZrank "zrevrank" true
  | ZSCORE => cmdZscore
  end.

(** The outcome of a handler's argument checks, keeping of the parsed
    values only the key. *)
Definition keyOf {A} (key : A → string) (p : parsed A) : parsed string :=
  match p with
  | Parsed a => Parsed (key a)
  | Malformed markDirty msg => Malformed markDirty msg
  end.

Definition checkArgs (v : verb) (rargs : list string) : parsed string :=
  match v with
  | ZADD => keyOf fst (zaddArgs rargs)
  | ZCARD => zcardArgs rargs
  | ZCOUNT => keyOf sr_key (zcountArgs rargs)
  | ZRANGE => keyOf rr_key (zrangeArgs "zrange" rargs)
  | ZRANGEBYLEX => keyOf lr_key (zrangebylexArgs rargs)
  | ZRANGEBYSCORE => keyOf (λ a, sr_key (sq_range a)) (zrangebyscoreArgs "zrangebyscore" rargs)
  | ZRANK => keyOf fst (zrankArgs "zrank" rargs)
  | ZREM => keyOf fst (zremArgs rargs)
  | ZREVRANGE => keyOf rr_key (zrangeArgs "zrevrange" rargs)
  | ZREVRANGEBYSCORE => keyOf (λ a, sr_key (sq_range a)) (zrangebyscoreArgs "zrevrangebyscore" rargs)
  | ZREVRANK => keyOf fst (zrankArgs "zrevrank" rargs)
  | ZSCORE => keyOf fst (zscoreArgs rargs)
  end.

End SortedSet.

(** ** A concrete environment

    An instance of [GoEnv] on which the handlers can be run. Its functions
    agree with Go's on the inputs they accept and reject the rest: decimal
    integers for [strconv.Atoi], decimal integers of magnitude at most 2^53
    for [strconv.ParseFloat], ASCII letters for the case mappings, integral
    values for [formatFloat]. The messages are those of the repository. *)
Module Sample.

Fixpoint digits (s : string) (acc : Z) : option Z :=
  match s with
  | EmptyString => Some acc
  | String c rest =>
      let n := Z.of_N (N_of_ascii c) in
      if (48 <=? n) && (n <=? 57) then digits rest (10 * acc + (n - 48)) else None
  end.

Definition signedDigits (s : string) : option Z :=
  match s with
  | EmptyString => None
  | String c rest =>
      if Ascii.eqb c "-" then
        match rest with EmptyString => None | _ => Z.opp <$> digits rest 0 end
      else if Ascii.eqb c "+" then
        match rest with EmptyString => None | _ => digits rest 0 end
      else digits s 0
  end.

Definition atoi (s : string) : option Z :=
  match signedDigits s with
  | Some v => if (- 2 ^ 63 <=? v) && (v <? 2 ^ 63) then Some v else None
  | None => None
  end.

Definition floatOfZ (v : Z) : float :=
  if v <? 0 then PrimFloat.opp (PrimFloat.of_uint63 (Uint63.of_Z (- v)))
  else PrimFloat.of_uint63 (Uint63.of_Z v).

Definition parseFloat (s : string) : option float :=
  match s with
  | "-0" => Some (-0)%float
  | _ =>
      match signedDigits s with
      | Some v => if Z.abs v <=? 2 ^ 53 then Some (floatOfZ v) else None
      | None => None
      end
  end.

Definition mapAscii (f : Z → Z) (s : string) : string :=
  string_of_list_ascii
    ((λ c, ascii_of_N (Z.to_N (f (Z.of_N (N_of_ascii c)))))
       <$> list_ascii_of_string s).

Definition toLower : string → string :=
  mapAscii (λ n, if (65 <=? n) && (n <=? 90) then n + 32 else n).

Definition toUpper : string → string :=
  mapAscii (λ n, if (97 <=? n) && (n <=? 122) then n - 32 else n).

Definition showFloat (f : float) : string :=
  match Prim2SF f with
  | S754_zero s => if s then "-0" else "0"
  | S754_infinity s => if s then "-Inf" else "+Inf"
  | S754_nan => "NaN"
  | S754_finite s m e =>
      let sign := if s then "-" else "" in
      if 0 <=? e then sign +:+ pretty (Z.pos m * 2 ^ e)
      else if Z.pos m mod 2 ^ (- e) =? 0 then sign +:+ pretty (Z.pos m / 2 ^ (- e))
      else sign +:+ "?"
  end.

#[export] Instance env : GoEnv := {|
  ParseFloat := parseFloat;
  Atoi := atoi;
  ToLower := toLower;
  ToUpper := toUpper;
  formatFloat := showFloat;
  mapRange := map_to_list;
  msgSyntaxError := "ERR syntax error";
  msgInvalidMinMax := "ERR min or max is not a float";
  msgInvalidInt := "ERR value is not an integer or out of range";
  msgInvalidRangeItem := "ERR min or max not valid string range item";
  msgWrongType := "WRONGTYPE Operation against a key holding the wrong kind of value";
|}.

(** A server with database 0 holding the sorted set ["z"] = (a, 1), (b, 2),
    (c, 3), the sorted set ["n"] = (a, -1), (b, 1) and the string ["s"]; a
    fresh connection. *)
Definition zset_z : gmap string float :=
  <["a" := 1%float]> (<["b" := 2%float]> (<["c" := 3%float]> ∅)).

Definition zset_n : gmap string float :=
  <["a" := (-1)%float]> (<["b" := 1%float]> ∅).

Definition db0 : RedisDB :=
  <["z" := VZset zset_z]> (<["n" := VZset zset_n]> (<["s" := VString "hello"]> ∅)).

Definition st0 : State :=
  mkState {[ 0 := db0 ]} "127.0.0.1" 6379 0 false [] 0.

(** The handlers in this environment. *)
Definition run (v : verb) (rargs : list string) : State → State :=
  commandsSortedSet v rargs.

Definition cluster (args : list string) : State → State :=
  cmdCluster "CLUSTER" args.

End Sample.

(** ** What the properties are stated with *)

(** The state in which a closure starts: [withTx] has been entered once
    more, nothing else has changed. *)
Definition enter (st : State) : State :=
  mkState (dbs st) (srvIP st) (srvPort st) (selectedDB st) (dirty st)
          (replies st) (S (txEntered st)).

(** The members that the closure of ZRANGE / ZREVRANGE writes: the snapshot,
    reversed for ZREVRANGE, cut to the window of [redisRange]. *)
Definition zrangeMembers (reverse : bool) (members : list string)
    (start end_ : Z) : list string :=
  let members := if reverse then reverseSlice members else members in
  let '(rs, re) := redisRange (Z.of_nat (length members)) start end_ in
  slice members (Z.to_nat rs) (Z.to_nat re).

(** Writing a sequence of replies, in order. *)
Definition writes (rs : list reply) (st : State) : State :=
  foldl (λ st r, write r st) st rs.

(** The reply that carries a sequence of members: the array header, then
    each member, followed by its score when WITHSCORES is given. ZRANGE and
    ZREVRANGE look the score up in the set, the by-score ranges carry it in
    the element. *)
Definition membersReply `{GoEnv} (withScores : bool) (db : RedisDB) (key : string)
    (members : list string) : list reply :=
  let n := Z.of_nat (length members) in
  RLen (if withScores then n * 2 else n)
  :: flat_map (λ el, RBulk el ::
                     if withScores then [RBulk (formatFloat (zscore db key el))]
                     else [])
              members.

Definition elemsReply `{GoEnv} (withScores : bool) (elems : list ssElem)
    : list reply :=
  let n := Z.of_nat (length elems) in
  RLen (if withScores then n * 2 else n)
  :: flat_map (λ el, RBulk (member el) ::
                     if withScores then [RBulk (formatFloat (score el))] else [])
              elems.

(** The bounds of a score range, per their inclusivity flags. *)
Definition minOk (min : float) (minIncl : bool) (e : ssElem) : bool :=
  if minIncl then fge (score e) min else fgt (score e) min.

Definition maxOk (max : float) (maxIncl : bool) (e : ssElem) : bool :=
  if maxIncl then PrimFloat.leb (score e) max else PrimFloat.ltb (score e) max.

Definition inScoreRange (min : float) (minIncl : bool) (max : float)
    (maxIncl : bool) (e : ssElem) : bool :=
  minOk min minIncl e && maxOk max maxIncl e.

(** A snapshot in ascending score order without NaN scores, as the canonical
    order of a sorted set gives it. *)
Definition scoreSorted (l : list ssElem) : Prop :=
  StronglySorted (λ a b, PrimFloat.leb (score a) (score b) = true) l
  ∧ Forall (λ e, PrimFloat.eqb (score e) (score e) = true) l.

(** The bounds of a lexicographic range, per their inclusivity flags; ["-"]
    as minimum and ["+"] as maximum bound nothing. *)
Definition lexMinOk (min : string) (minIncl : bool) (m : string) : bool :=
  String.eqb min "-" || (if minIncl then sge m min else sgt m min).

Definition lexMaxOk (max : string) (maxIncl : bool) (m : string) : bool :=
  String.eqb max "+" || (if maxIncl then String.leb m max else String.ltb m max).

Definition inLexRange (min : string) (minIncl : bool) (max : string)
    (maxIncl : bool) (m : string) : bool :=
  lexMinOk min minIncl m && lexMaxOk max maxIncl m.

(** A member list in ascending bytewise order, as [sort.Strings] leaves it. *)
Definition lexSorted (l : list string) : Prop :=
  StronglySorted (λ a b, String.leb a b = true) l.

(** The position of a float that is not a NaN in the order of the
    comparisons: the infinities at both ends, the finite values by sign, then
    exponent, then mantissa. *)
Definition floatKey (f : spec_float) : option (Z * Z * Z) :=
  match f with
  | S754_nan => None
  | S754_infinity s => Some (if s then (-2, 0, 0) else (2, 0, 0))
  | S754_zero _ => Some (0, 0, 0)
  | S754_finite s m e => Some (if s then (-1, - e, Z.neg m) else (1, e, Z.pos m))
  end.

Definition keyCompare (k1 k2 : Z * Z * Z) : comparison :=
  match k1.1.1 ?= k2.1.1 with
  | Eq => match k1.1.2 ?= k2.1.2 with Eq => k1.2 ?= k2.2 | c => c end
  | c => c
  end.

Definition keyLe (k1 k2 : Z * Z * Z) : Prop :=
  k1.1.1 < k2.1.1
  ∨ (k1.1.1 = k2.1.1 ∧ (k1.1.2 < k2.1.2 ∨ (k1.1.2 = k2.1.2 ∧ k1.2 ≤ k2.2))).

Definition keyLt (k1 k2 : Z * Z * Z) : Prop :=
  k1.1.1 < k2.1.1
  ∨ (k1.1.1 = k2.1.1 ∧ (k1.1.2 < k2.1.2 ∨ (k1.1.2 = k2.1.2 ∧ k1.2 < k2.2))).

(** The reply of each command on a key that does not exist: integer 0 for
    ZCARD, ZCOUNT and ZREM, nil for ZSCORE, ZRANK and ZREVRANK, the empty
    array for the ranges. ZADD has none: it creates the key. *)
Definition emptyReply (v : verb) : option reply :=
  match v with
  | ZADD => None
  | ZCARD | ZCOUNT | ZREM => Some (RInt 0)
  | ZSCORE | ZRANK | ZREVRANK => Some RNil
  | ZRANGE | ZREVRANGE | ZRANGEBYSCORE | ZREVRANGEBYSCORE | ZRANGEBYLEX =>
      Some (RLen 0)
  end.

(** LIMIT offset count on a filtered sequence, in the words of the
    specification: empty when the offset is negative or at or beyond the
    length; otherwise the first [offset] elements are dropped and, when
    [count] is not negative, at most [count] elements are kept. *)
Definition limited {A} (filtered : list A) (offset count : Z) : list A :=
  if decide (offset < 0) then []
  else if decide (Z.of_nat (length filtered) ≤ offset) then []
  else if decide (0 ≤ count)
       then take (Z.to_nat count) (drop (Z.to_nat offset) filtered)
       else drop (Z.to_nat offset) filtered.

(** The last score given for [mem] among the (score, member) pairs of a ZADD
    call, in argument order: a later pair wins over an earlier one. *)
Fixpoint lastScoreOf `{GoEnv} (args : list string) (mem : string) : option float :=
  match args with
  | s :: m :: args' =>
      match lastScoreOf args' mem with
      | Some sc => Some sc
      | None => if String.eqb m mem then ParseFloat s else None
      end
  | _ => None
  end.

(** The members named by the (score, member) pairs of a ZADD call. *)
Fixpoint callMembers (args : list string) : list string :=
  match args with
  | _ :: m :: args' => m :: callMembers args'
  | _ => []
  end.

(** The score arguments of the (score, member) pairs of a ZADD call. *)
Fixpoint callScores (args : list string) : list string :=
  match args with
  | s :: _ :: args' => s :: callScores args'
  | _ => []
  end.

(** The number of distinct members of [mems] for which [isNew] holds: each
    counts once however often it is listed. *)
Definition countNew (isNew : string → bool) (mems : list string) : Z :=
  Z.of_nat (length (filter (λ m, isNew m = true) (remove_dups mems))).

(** ** Properties of the range engine *)

(** C1 (failing input). On the one-element snapshot [(a, 1)] and the range
    [5 <= score <= 10], no score reaches the minimum, the scan for the
    minimum leaves the snapshot untouched, and [withSSRange] returns the
    element although its score 1 is below 5; ZCOUNT on the set z = (a, 1),
    (b, 2), (c, 3) with the same range answers 3. *)
Theorem withSSRange_unmatched_min_keeps_all :
  withSSRange [SSElem "a" 1] 5 true 10 true = [SSElem "a" 1]
  ∧ minOk 5 true (SSElem "a" 1) = false
  ∧ replies (Sample.run ZCOUNT ["z"; "5"; "10"] Sample.st0) = [RInt 3].
Proof. by vm_compute. Qed.

(** C5 (failing input). On the sorted members [a] and the range
    [b <= m], no member reaches the minimum, the scan leaves the list
    untouched, and [withLexRange] returns [a] although [a < b]; ZRANGEBYLEX
    on the set z with members a, b, c and the range [[x, +] returns all of
    them. *)
Theorem withLexRange_unmatched_min_keeps_all :
  withLexRange ["a"] "b" true "+" false = ["a"]
  ∧ sge "a" "b" = false
  ∧ replies (Sample.run ZRANGEBYLEX ["z"; "[x"; "+"] Sample.st0)
    = [RLen 3; RBulk "a"; RBulk "b"; RBulk "c"].
Proof. by vm_compute. Qed.

(** ** LIMIT *)

Lemma applyLimit_limited {A} (members : list A) (offset count : Z) :
  applyLimit members offset count = limited members offset count.
Proof.
  unfold applyLimit, limited.
  destruct (Z.ltb_spec offset 0); case_decide; try lia; [done|].
  destruct (Z.ltb_spec offset (Z.of_nat (length members))); case_decide; try lia.
  - destruct (Z.leb_spec 0 count); case_decide; try lia; [|done].
    destruct (Z.ltb_spec count (Z.of_nat (length (drop (Z.to_nat offset) members))));
      [done|].
    symmetry. apply take_ge. lia.
  - destruct (Z.leb_spec 0 count); [|done].
    simpl. rewrite take_nil. by destruct (count <? _).
Qed.

(** ** CLUSTER *)

(** C10. The cluster stubs enter the atomic section and write fixed data,
    whatever their arguments and whatever the databases hold: CLUSTER KEYSLOT
    writes the integer 163 for every key, CLUSTER NODES one fixed line,
    CLUSTER SLOTS one slot range 0-16383 served by the address the server
    listens on with a fixed node id. The databases and the dirty flag are
    left as they were. *)
Theorem cluster_stubs_fixed `{GoEnv} (cmd sub key : string) (args : list string)
    (st : State) :
  cmdClusterKeySlot cmd args st = WriteInt 163 (enter st)
  ∧ cmdClusterNodes cmd args st
    = WriteBulk "e7d1eecce10fd6bb5eb35b9f99a514335d9ba9ca 127.0.0.1:7000@7000 myself,master - 0 0 1 connected 0-16383"
                (enter st)
  ∧ cmdClusterSlots cmd args st
    = foldl (λ st r, write r st) (enter st)
        [RLen 1; RLen 3; RInt 0; RInt 16383; RLen 3; RBulk (srvIP st);
         RInt (srvPort st); RBulk "09dbe9720cda62f7865eabc5fd8857c5d2678366"]
  ∧ (ToUpper sub = "KEYSLOT" →
     cmdCluster cmd [sub; key] st = WriteInt 163 (enter st))
  ∧ (ToUpper sub = "NODES" →
     cmdCluster cmd [sub] st = cmdClusterNodes cmd [sub] st)
  ∧ (ToUpper sub = "SLOTS" →
     cmdCluster cmd [sub] st = cmdClusterSlots cmd [sub] st).
Proof.
  repeat split; try reflexivity.
  - intros Hsub. unfold cmdCluster. simpl. by rewrite Hsub.
  - intros Hsub. unfold cmdCluster. simpl. by rewrite Hsub.
  - intros Hsub. unfold cmdCluster. simpl. by rewrite Hsub.
Qed.

Lemma cluster_stubs_fixed_witness :
  Sample.cluster ["keyslot"; "any key"] Sample.st0 = WriteInt 163 (enter Sample.st0).
Proof.
  apply (@cluster_stubs_fixed Sample.env "CLUSTER" "keyslot" "any key" [] Sample.st0).
  reflexivity.
Defined.

(** ** Missing keys, wrong types and malformed arguments *)

Section Handlers.
Context `{GoEnv}.

Lemma keyOf_Parsed {A} (f : A → string) (p : parsed A) (key : string) :
  keyOf f p = Parsed key → ∃ a, p = Parsed a ∧ f a = key.
Proof. destruct p; simpl; [|done]. intros [= <-]. eauto. Qed.

Lemma keyOf_Malformed {A} (f : A → string) (p : parsed A) d msg :
  keyOf f p = Malformed d msg → p = Malformed d msg.
Proof. destruct p; simpl; [done|]. by intros [= -> ->]. Qed.

(** Every handler whose argument checks fail returns before [withTx]: it
    writes the message, after [setDirty] when the failing check calls it. *)
Lemma malformed_returns_early (v : verb) (rargs : list string) d msg (st : State) :
  checkArgs v rargs = Malformed d msg →
  commandsSortedSet v rargs st
    = WriteErrorString msg (if d then setDirty st else st).
Proof.
  destruct v; simpl; intros Hargs;
    try apply keyOf_Malformed in Hargs;
    unfold cmdZadd, cmdZcard, cmdZcount, makeCmdZrange, cmdZrangebylex,
      makeCmdZrangebyscore, makeCmdZrank, cmdZrem, cmdZscore;
    by rewrite Hargs.
Qed.

Ltac parsed_key Hargs st :=
  simpl in Hargs;
  try (let a := fresh "a" in apply keyOf_Parsed in Hargs as (a & Hargs & <-));
  unfold commandsSortedSet, cmdZadd, cmdZcard, cmdZcount, makeCmdZrange, cmdZrangebylex,
    makeCmdZrangebyscore, makeCmdZrank, cmdZrem, cmdZscore;
  rewrite Hargs; unfold handle, withTx;
  fold (enter st).

(** C3. A sorted-set command with well-formed arguments on a key that does
    not exist in the selected database enters the atomic section and writes
    exactly its empty result: integer 0 for ZCARD, ZCOUNT and ZREM, nil for
    ZSCORE, ZRANK and ZREVRANK, the empty array for ZRANGE, ZREVRANGE,
    ZRANGEBYSCORE, ZREVRANGEBYSCORE and ZRANGEBYLEX; never an error. Nothing
    else changes. *)
Theorem missing_key_empty_result (v : verb) (rargs : list string) (key : string)
    (r : reply) (st : State) :
  checkArgs v rargs = Parsed key →
  db_exists (getDB (selectedDB st) st) key = false →
  emptyReply v = Some r →
  commandsSortedSet v rargs st = write r (enter st).
Proof.
  intros Hargs Hmissing Hreply.
  destruct v; simpl in Hreply; try discriminate Hreply;
    injection Hreply as <-; parsed_key Hargs st;
    unfold zcardBody, zcountBody, zrangeBody, zrangebylexBody,
      zrangebyscoreBody, zrankBody, zremBody, zscoreBody;
    try (match goal with a : (_ * _)%type |- _ => destruct a end); simpl in *;
    change (getDB (selectedDB st) (enter st)) with (getDB (selectedDB st) st);
    by rewrite Hmissing.
Qed.

(** C4. A sorted-set command with well-formed arguments, ZADD included, on a
    key that exists and does not hold an ordered set enters the atomic
    section and writes the wrong-type error; the databases are unchanged and
    the dirty flag is not set by it. *)
Theorem wrong_type_error_inside_tx (v : verb) (rargs : list string) (key : string)
    (st : State) :
  checkArgs v rargs = Parsed key →
  db_exists (getDB (selectedDB st) st) key = true →
  db_t (getDB (selectedDB st) st) key ≠ "zset" →
  commandsSortedSet v rargs st = WriteErrorString msgWrongType (enter st).
Proof.
  intros Hargs Hexists Htype.
  apply String.eqb_neq in Htype.
  destruct v; parsed_key Hargs st;
    unfold zaddBody, zcardBody, zcountBody, zrangeBody, zrangebylexBody,
      zrangebyscoreBody, zrankBody, zremBody, zscoreBody;
    try (match goal with a : (_ * _)%type |- _ => destruct a end); simpl in *;
    change (getDB (selectedDB st) (enter st)) with (getDB (selectedDB st) st);
    by rewrite Hexists, Htype.
Qed.

End Handlers.

Lemma missing_key_empty_result_witness :
  Sample.run ZSCORE ["nope"; "x"] Sample.st0 = write RNil (enter Sample.st0).
Proof.
  apply (@missing_key_empty_result Sample.env ZSCORE ["nope"; "x"] "nope");
    by vm_compute.
Defined.

Lemma wrong_type_error_inside_tx_witness :
  Sample.run ZADD ["s"; "1"; "a"] Sample.st0
  = WriteErrorString
      "WRONGTYPE Operation against a key holding the wrong kind of value"
      (enter Sample.st0).
Proof.
  apply (@wrong_type_error_inside_tx Sample.env ZADD ["s"; "1"; "a"] "s").
  - by vm_compute.
  - by vm_compute.
  - by vm_compute.
Defined.

(** C2 (failing inputs). Three argument checks write the syntax error and
    return before the closure without calling [setDirty]: more than four
    arguments to ZRANGE / ZREVRANGE, and a LIMIT followed by fewer than two
    arguments in ZRANGEBYLEX and in ZRANGEBYSCORE / ZREVRANGEBYSCORE. On a
    fresh connection the dirty flag is still false afterwards. *)
Theorem syntax_errors_without_setDirty :
  let st1 := Sample.run ZRANGE ["z"; "0"; "-1"; "WITHSCORES"; "extra"] Sample.st0 in
  let st2 := Sample.run ZRANGEBYLEX ["z"; "-"; "+"; "LIMIT"; "0"] Sample.st0 in
  let st3 := Sample.run ZRANGEBYSCORE ["z"; "1"; "3"; "LIMIT"; "0"] Sample.st0 in
  (replies st1 = [RError "ERR syntax error"] ∧ txEntered st1 = O ∧ dirty st1 = false)
  ∧ (replies st2 = [RError "ERR syntax error"] ∧ txEntered st2 = O ∧ dirty st2 = false)
  ∧ (replies st3 = [RError "ERR syntax error"] ∧ txEntered st3 = O ∧ dirty st3 = false).
Proof. by vm_compute. Qed.

(** ** Reversal *)

Section Reverse.
Context {A : Type}.
Implicit Types (o l : list A) (i j k m n : nat).

Lemma swap_length o i j : length (swap o i j) = length o.
Proof.
  unfold swap. destruct (o !! i), (o !! j); try done.
  by rewrite !length_insert.
Qed.

Lemma swap_lookup o i j k :
  (i < length o)%nat → (j < length o)%nat →
  swap o i j !! k =
    if decide (k = i) then o !! j else if decide (k = j) then o !! i else o !! k.
Proof.
  intros Hi Hj. unfold swap.
  destruct (lookup_lt_is_Some_2 o i Hi) as [x Hx].
  destruct (lookup_lt_is_Some_2 o j Hj) as [y Hy].
  rewrite Hx, Hy.
  destruct (decide (k = i)) as [->|Hki].
  - rewrite list_lookup_insert_eq; [done|]. by rewrite length_insert.
  - rewrite list_lookup_insert_ne by done.
    destruct (decide (k = j)) as [->|Hkj].
    + by rewrite list_lookup_insert_eq.
    + by rewrite list_lookup_insert_ne.
Qed.

(** After [m] rounds of the loop the first and the last [m] positions hold
    the mirrored elements and the middle is untouched. *)
Lemma reverse_loop_invariant o m :
  (2 * m ≤ length o)%nat →
  let l := foldl (λ o i, swap o i (length o - 1 - i)%nat) o (seq 0 m) in
  length l = length o
  ∧ ∀ k, (k < length o)%nat →
      l !! k = if decide (k < m ∨ length o - m ≤ k)%nat
               then o !! (length o - 1 - k)%nat else o !! k.
Proof.
  induction m as [|m IH]; intros Hm; cbv zeta.
  - simpl. split; [done|]. intros k Hk. case_decide; [lia|done].
  - destruct IH as [Hlen Hlook]; [lia|].
    rewrite seq_S, foldl_app. simpl.
    set (l := foldl _ o (seq 0 m)) in *.
    split; [by rewrite swap_length|].
    intros k Hk. rewrite Hlen.
    rewrite swap_lookup by lia.
    destruct (decide (k = m)) as [->|Hkm].
    + rewrite Hlook by lia. rewrite decide_False by lia.
      rewrite decide_True by lia. done.
    + destruct (decide (k = (length o - 1 - m)%nat)) as [->|Hkn].
      * rewrite Hlook by lia. rewrite decide_False by lia.
        rewrite decide_True by lia. f_equal. lia.
      * rewrite Hlook by lia.
        destruct (decide (k < m ∨ length o - m ≤ k)%nat);
          [rewrite decide_True by lia | rewrite decide_False by lia]; done.
Qed.

(** The in-place loop of [reverseSlice] and [reverseElems] reverses. *)
Lemma reverseInPlace_reverse o : reverseInPlace o = reverse o.
Proof.
  unfold reverseInPlace.
  pose proof (Nat.div_mod_eq (length o) 2) as Hdiv.
  pose proof (Nat.mod_upper_bound (length o) 2) as Hmod.
  destruct (reverse_loop_invariant o (length o / 2)%nat) as [Hlen Hlook]; [lia|].
  apply list_eq. intros k.
  destruct (decide (k < length o)%nat) as [Hk|Hk].
  - rewrite Hlook by done. rewrite reverse_lookup by done.
    case_decide; f_equal; lia.
  - rewrite !lookup_ge_None_2; [done| |]; rewrite ?length_reverse, ?Hlen; lia.
Qed.


End Reverse.

Ltac split_tests :=
  repeat match goal with
  | |- context [?a <? ?b] => destruct (Z.ltb_spec a b)
  | |- context [?a <=? ?b] => destruct (Z.leb_spec a b)
  end.

Lemma redisRange_bounds (l start end_ rs re : Z) :
  0 ≤ l → redisRange l start end_ = (rs, re) → 0 ≤ rs ≤ re ∧ re ≤ l.
Proof.
  unfold redisRange. intros Hl. split_tests; simpl; intros [= <- <-]; lia.
Qed.




Section RangeBodies.
Context `{GoEnv}.

(** On a key that holds a sorted set, the closure of ZRANGE / ZREVRANGE
    writes the length of [zrangeMembers] (doubled with WITHSCORES) and then
    its members. *)
Lemma zrangeBody_writes_zrangeMembers (reverse : bool) (a : rankRange) (sel : Z)
    (st : State) :
  let db := getDB sel st in
  let out := zrangeMembers reverse (zmembers db (rr_key a)) (rr_start a) (rr_end a) in
  let n := Z.of_nat (length out) in
  db_exists db (rr_key a) = true →
  db_t db (rr_key a) = "zset" →
  zrangeBody reverse a sel st
  = writeMembers (rr_withScores a) db (rr_key a) out
      (WriteBulkLen (if rr_withScores a then n * 2 else n) st).
Proof.
  intros db out n Hex Hty. unfold zrangeBody. fold db. rewrite Hex, Hty. simpl.
  subst out n. unfold zrangeMembers.
  set (ms := if reverse then _ else _).
  destruct (redisRange _ _ _) as [rs re] eqn:Hwin.
  apply redisRange_bounds in Hwin as Hb; [|lia].
  assert (Z.of_nat (length (slice ms (Z.to_nat rs) (Z.to_nat re))) = re - rs) as ->.
  { unfold slice. rewrite length_take, length_drop. lia. }
  by destruct (rr_withScores a).
Qed.

End RangeBodies.

Lemma zrangebyscoreRange_reverse (key : string) (lo hi : float)
    (loIncl hiIncl : bool) (elems : list ssElem) :
  zrangebyscoreRange true (mkScoreRange key hi hiIncl lo loIncl) elems
  = reverse (withSSRange elems lo loIncl hi hiIncl).
Proof.
  unfold zrangebyscoreRange, reverseElems. simpl. apply reverseInPlace_reverse.
Qed.


Lemma writes_app (rs1 rs2 : list reply) (st : State) :
  writes (rs1 ++ rs2) st = writes rs2 (writes rs1 st).
Proof. apply foldl_app. Qed.

Section Replies.
Context `{GoEnv}.

Lemma writeMembers_writes (withScores : bool) (db : RedisDB) (key : string)
    (members : list string) (st : State) :
  writeMembers withScores db key members st
  = writes (flat_map (λ el, RBulk el ::
                       if withScores then [RBulk (formatFloat (zscore db key el))]
                       else []) members) st.
Proof.
  unfold writeMembers. revert st.
  induction members as [|el members IH]; intros st; [done|].
  simpl. rewrite IH. unfold writes. simpl. by destruct withScores.
Qed.

Lemma zrangeBody_reply (reverse : bool) (a : rankRange) (sel : Z) (st : State) :
  let db := getDB sel st in
  db_exists db (rr_key a) = true →
  db_t db (rr_key a) = "zset" →
  zrangeBody reverse a sel st
  = writes (membersReply (rr_withScores a) db (rr_key a)
              (zrangeMembers reverse (zmembers db (rr_key a)) (rr_start a) (rr_end a)))
           st.
Proof.
  intros db Hex Hty.
  rewrite (zrangeBody_writes_zrangeMembers reverse a sel st Hex Hty).
  by rewrite writeMembers_writes.
Qed.

Lemma zrangebyscoreBody_reply (reverse : bool) (a : scoreQuery) (sel : Z)
    (st : State) :
  let db := getDB sel st in
  let key := sr_key (sq_range a) in
  db_exists db key = true →
  db_t db key = "zset" →
  zrangebyscoreBody reverse a sel st
  = writes (elemsReply (sq_withScores a)
              (zrangebyscoreElems reverse a (zelements db key))) st.
Proof.
  intros db key Hex Hty. unfold zrangebyscoreBody. fold db key.
  rewrite Hex, Hty. simpl.
  generalize (zrangebyscoreElems reverse a (zelements db key)). intros elems.
  unfold elemsReply, writes. cbn [foldl].
  assert ((if sq_withScores a
           then WriteBulkLen (Z.of_nat (length elems) * 2) st
           else WriteBulkLen (Z.of_nat (length elems)) st)
          = write (RLen (if sq_withScores a
                         then Z.of_nat (length elems) * 2
                         else Z.of_nat (length elems))) st) as ->.
  { by destruct (sq_withScores a). }
  generalize (write (RLen (if sq_withScores a
                           then Z.of_nat (length elems) * 2
                           else Z.of_nat (length elems))) st).
  induction elems as [|el elems IH]; intros st'; [done|].
  simpl. rewrite IH. by destruct (sq_withScores a).
Qed.


End Replies.


(** ** What the range commands write *)

Lemma foldl_WriteString_writes (out : list string) (st : State) :
  foldl (λ st el, WriteString el st) st out = writes (RBulk <$> out) st.
Proof.
  revert st. induction out as [|el out IH]; intros st; [done|].
  simpl. by rewrite IH.
Qed.

Lemma replies_writes (rs : list reply) (st : State) :
  replies (writes rs st) = replies st ++ rs.
Proof.
  revert st. induction rs as [|r rs IH]; intros st.
  - by rewrite app_nil_r.
  - unfold writes in *. simpl. rewrite IH. simpl. by rewrite <- app_assoc.
Qed.

Section RangeCommands.
Context `{GoEnv}.

Lemma zrangebylexBody_reply (a : lexRange) (sel : Z) (st : State) :
  let db := getDB sel st in
  let out := zrangebylexMembers a (zmembers db (lr_key a)) in
  db_exists db (lr_key a) = true →
  db_t db (lr_key a) = "zset" →
  zrangebylexBody a sel st
  = writes (RLen (Z.of_nat (length out)) :: (RBulk <$> out)) st.
Proof.
  intros db out Hex Hty. unfold zrangebylexBody. fold db.
  rewrite Hex, Hty. cbn [negb].
  change (negb (String.eqb "zset" "zset")) with false. cbv iota.
  fold out. cbv zeta. by rewrite foldl_WriteString_writes.
Qed.

(** A well-formed by-score range on a key that holds a sorted set writes,
    inside the atomic section, the elements of [zrangebyscoreElems]. *)
Lemma makeCmdZrangebyscore_writes (cmd : string) (reverse : bool)
    (rargs : list string) (q : scoreQuery) (st : State) :
  let db := getDB (selectedDB st) st in
  let key := sr_key (sq_range q) in
  zrangebyscoreArgs cmd rargs = Parsed q →
  db_exists db key = true →
  db_t db key = "zset" →
  makeCmdZrangebyscore cmd reverse rargs st
  = writes (elemsReply (sq_withScores q)
              (zrangebyscoreElems reverse q (zelements db key)))
           (enter st).
Proof.
  intros db key Hargs Hex Hty. unfold makeCmdZrangebyscore. rewrite Hargs.
  cbn [handle]. unfold withTx. fold (enter st).
  exact (zrangebyscoreBody_reply reverse q (selectedDB st) (enter st) Hex Hty).
Qed.

(** A well-formed ZRANGEBYLEX on a key that holds a sorted set writes,
    inside the atomic section, the members of [zrangebylexMembers]. *)
Lemma cmdZrangebylex_writes (rargs : list string) (a : lexRange) (st : State) :
  let db := getDB (selectedDB st) st in
  let out := zrangebylexMembers a (zmembers db (lr_key a)) in
  zrangebylexArgs rargs = Parsed a →
  db_exists db (lr_key a) = true →
  db_t db (lr_key a) = "zset" →
  cmdZrangebylex rargs st
  = writes (RLen (Z.of_nat (length out)) :: (RBulk <$> out)) (enter st).
Proof.
  intros db out Hargs Hex Hty. unfold cmdZrangebylex. rewrite Hargs.
  cbn [handle]. unfold withTx. fold (enter st).
  exact (zrangebylexBody_reply a (selectedDB st) (enter st) Hex Hty).
Qed.

(** C7. A well-formed ZRANGEBYSCORE or ZREVRANGEBYSCORE (either value of
    [reverse]) or ZRANGEBYLEX whose arguments carry a LIMIT offset count
    clause, on a key that holds a sorted set, writes the sequence left by the
    range filter cut as the clause says: nothing when the offset is negative
    or at or beyond the filtered length; otherwise the sequence without its
    first [offset] elements and, when [count] is not negative, with at most
    [count] of the remaining ones; a negative count keeps everything after
    the offset. The array header announces the elements so cut. *)
Theorem limit_clause_cuts_filtered_sequence (reverse : bool) (cmd : string)
    (rargs lexArgs : list string) (q : scoreQuery) (a : lexRange)
    (offset count : Z) (st : State) :
  let db := getDB (selectedDB st) st in
  (let key := sr_key (sq_range q) in
   let filtered := zrangebyscoreRange reverse (sq_range q) (zelements db key) in
   zrangebyscoreArgs cmd rargs = Parsed q →
   sq_limit q = Some (offset, count) →
   db_exists db key = true →
   db_t db key = "zset" →
   makeCmdZrangebyscore cmd reverse rargs st
   = writes (elemsReply (sq_withScores q) (limited filtered offset count))
            (enter st))
  ∧ (let key := lr_key a in
     let filtered :=
       withLexRange (sortStrings (zmembers db key))
                    (lr_min a) (lr_minIncl a) (lr_max a) (lr_maxIncl a) in
     let out := limited filtered offset count in
     zrangebylexArgs lexArgs = Parsed a →
     lr_limit a = Some (offset, count) →
     db_exists db key = true →
     db_t db key = "zset" →
     cmdZrangebylex lexArgs st
     = writes (RLen (Z.of_nat (length out)) :: (RBulk <$> out)) (enter st)).
Proof.
  intros db. split.
  - intros key filtered Hargs Hlimit Hex Hty.
    rewrite (makeCmdZrangebyscore_writes cmd reverse rargs q st Hargs Hex Hty).
    unfold zrangebyscoreElems. rewrite Hlimit. cbv zeta.
    by rewrite applyLimit_limited.
  - intros key filtered out Hargs Hlimit Hex Hty.
    rewrite (cmdZrangebylex_writes lexArgs a st Hargs Hex Hty).
    unfold zrangebylexMembers. rewrite Hlimit. cbv zeta.
    by rewrite applyLimit_limited.
Qed.

End RangeCommands.

Lemma limit_clause_cuts_filtered_sequence_witness :
  replies (Sample.run ZREVRANGEBYSCORE ["z"; "3"; "1"; "WITHSCORES"; "LIMIT"; "1"; "5"]
                      Sample.st0)
  = [RLen 4; RBulk "b"; RBulk "2"; RBulk "a"; RBulk "1"]
  ∧ replies (Sample.run ZRANGEBYLEX ["z"; "-"; "+"; "LIMIT"; "1"; "1"] Sample.st0)
    = [RLen 1; RBulk "b"].
Proof.
  destruct (@limit_clause_cuts_filtered_sequence Sample.env true "zrevrangebyscore"
              ["z"; "3"; "1"; "WITHSCORES"; "LIMIT"; "1"; "5"]
              ["z"; "-"; "+"; "LIMIT"; "1"; "1"]
              (mkScoreQuery (mkScoreRange "z" 3 true 1 true) true (Some (1, 5)))
              (mkLexRange "z" "-" false "+" false (Some (1, 1)))
              1 5 Sample.st0) as [Hscore _].
  destruct (@limit_clause_cuts_filtered_sequence Sample.env true "zrevrangebyscore"
              ["z"; "3"; "1"; "WITHSCORES"; "LIMIT"; "1"; "5"]
              ["z"; "-"; "+"; "LIMIT"; "1"; "1"]
              (mkScoreQuery (mkScoreRange "z" 3 true 1 true) true (Some (1, 5)))
              (mkLexRange "z" "-" false "+" false (Some (1, 1)))
              1 1 Sample.st0) as [_ Hlex].
  split.
  - unfold Sample.run, commandsSortedSet.
    rewrite Hscore by reflexivity. reflexivity.
  - unfold Sample.run, commandsSortedSet.
    rewrite Hlex by reflexivity. reflexivity.
Defined.


(** ** Empty score bounds *)

(** C8 (counterexample). The set n holds (a, -1) and (b, 1). With an
    empty-string minimum and the maximum 5 both members are within the
    maximum, yet the range keeps only b and ZCOUNT answers 1: the empty
    string is the bound 0, exclusive, not the absence of a bound. *)
Lemma empty_min_bound_drops_nonpositive_scores :
  @parseFloatRange Sample.env "" = Some (0%float, false)
  ∧ zelements Sample.db0 "n" = [SSElem "a" (-1); SSElem "b" 1]
  ∧ maxOk 5 true (SSElem "a" (-1)) = true
  ∧ withSSRange (zelements Sample.db0 "n") 0 false 5 true = [SSElem "b" 1]
  ∧ replies (Sample.run ZCOUNT ["n"; ""; "5"] Sample.st0) = [RInt 1]
  ∧ replies (Sample.run ZRANGEBYSCORE ["n"; ""; "5"] Sample.st0)
    = [RLen 1; RBulk "b"].
Proof. by vm_compute. Qed.

(** C8 (amended). An empty-string score bound is accepted without error and
    is read as the bound 0 with the inclusive flag unset: in either position
    ZCOUNT, ZRANGEBYSCORE and ZREVRANGEBYSCORE do exactly what they do for
    the token "(0". *)
Theorem empty_bound_is_exclusive_zero `{GoEnv} (v : verb) (key other : string)
    (rest : list string) (st : State) :
  ParseFloat "0" = Some 0%float →
  v = ZCOUNT ∨ v = ZRANGEBYSCORE ∨ v = ZREVRANGEBYSCORE →
  parseFloatRange "" = Some (0%float, false)
  ∧ commandsSortedSet v (key :: "" :: other :: rest) st
    = commandsSortedSet v (key :: "(0" :: other :: rest) st
  ∧ commandsSortedSet v (key :: other :: "" :: rest) st
    = commandsSortedSet v (key :: other :: "(0" :: rest) st.
Proof.
  intros Hzero Hv.
  assert (parseFloatRange "(0" = parseFloatRange "") as Hsame.
  { simpl. by rewrite Hzero. }
  split; [done|].
  destruct Hv as [->|[->| ->]]; simpl;
    unfold cmdZcount, makeCmdZrangebyscore, zcountArgs, zrangebyscoreArgs;
    rewrite Hsame; done.
Qed.

Lemma empty_bound_is_exclusive_zero_witness :
  Sample.run ZCOUNT ["n"; ""; "5"] Sample.st0
  = Sample.run ZCOUNT ["n"; "(0"; "5"] Sample.st0.
Proof.
  apply (@empty_bound_is_exclusive_zero Sample.env ZCOUNT "n" "5" [] Sample.st0).
  - reflexivity.
  - by left.
Defined.

(** ** ZADD *)

Lemma pair_ind {A} (P : list A → Prop) :
  P [] → (∀ x, P [x]) → (∀ x y l, P l → P (x :: y :: l)) → ∀ l, P l.
Proof.
  intros Hnil Hone Hstep l. cut (P l ∧ ∀ x, P (x :: l)); [tauto|].
  induction l as [|y l [IH1 IH2]]; split; auto.
Qed.

Lemma zadd_zsetOf (db : RedisDB) (key : string) (sc : float) (mem : string) :
  zsetOf (zadd db key sc mem).1 key = <[mem := sc]> (zsetOf db key).
Proof. unfold zadd, zsetOf at 1. simpl. by rewrite lookup_insert_eq. Qed.

Lemma zadd_isNew (db : RedisDB) (key : string) (sc : float) (mem : string) :
  (zadd db key sc mem).2 = negb (zexists db key mem).
Proof. unfold zadd, zexists. simpl. by destruct (zsetOf db key !! mem). Qed.

Lemma filter_fst_length {A B} (p : A → bool) (l : list (A * B)) :
  length (filter (λ e, p e.1 = true) l) = length (filter (λ m, p m = true) l.*1).
Proof.
  induction l as [|e l IH]; [done|]. simpl.
  rewrite !filter_cons. destruct (decide (p e.1 = true)); simpl; by rewrite IH.
Qed.

Section Zadd.
Context `{GoEnv}.

Lemma zaddElems_lookup (args : list string) :
  ∀ acc elems, zaddElems args acc = Some elems →
  ∀ m, elems !! m
       = match lastScoreOf args m with Some sc => Some sc | None => acc !! m end.
Proof.
  induction args as [|s|s mem args IH] using pair_ind;
    intros acc elems Hel m; simpl in *.
  - by injection Hel as <-.
  - by injection Hel as <-.
  - destruct (ParseFloat s) as [sc|] eqn:Hs; [|done].
    rewrite (IH _ _ Hel). destruct (lastScoreOf args m); [done|].
    destruct (String.eqb_spec mem m) as [->|Hne].
    + by rewrite lookup_insert_eq.
    + by rewrite lookup_insert_ne.
Qed.

Lemma lastScoreOf_callMembers (args : list string) :
  ∀ acc elems, zaddElems args acc = Some elems →
  ∀ m, m ∈ callMembers args ↔ is_Some (lastScoreOf args m).
Proof.
  induction args as [|s|s mem args IH] using pair_ind;
    intros acc elems Hel m; simpl in *.
  - split; [by intros ?%elem_of_nil | by intros [? ?]].
  - split; [by intros ?%elem_of_nil | by intros [? ?]].
  - destruct (ParseFloat s) as [sc|] eqn:Hs; [|done].
    rewrite elem_of_cons, (IH _ _ Hel).
    destruct (lastScoreOf args m) as [sc'|]; [by split; eauto|].
    destruct (String.eqb_spec mem m) as [->|Hne].
    + split; eauto.
    + split; [|by intros [? ?]]. intros [->|[? ?]]; done.
Qed.

(** The loop over the entries of [elems], visited in any order without
    repetition: every listed member ends with its score in the set, the
    others keep theirs, and the counter grows by the number of entries
    whose member was not in the set before the loop. *)
Lemma zaddAll_loop (key : string) (db0 : RedisDB) (l : list (string * float)) :
  ∀ (db : RedisDB) (c : Z),
  NoDup l.*1 →
  (∀ m, m ∈ l.*1 → zsetOf db key !! m = zsetOf db0 key !! m) →
  let r := foldl (λ acc e,
                    let r := zadd acc.1 key e.2 e.1 in
                    (r.1, if r.2 then acc.2 + 1 else acc.2))
                 (db, c) l in
  (∀ m, zsetOf r.1 key !! m
        = match (list_to_map l : gmap string float) !! m with
          | Some sc => Some sc
          | None => zsetOf db key !! m
          end)
  ∧ r.2 = c + Z.of_nat (length (filter (λ e, negb (zexists db0 key e.1) = true) l)).
Proof.
  induction l as [|[mem sc] l IH]; intros db c Hnodup Hsame; cbv zeta.
  - simpl. split; [|lia]. intros m. by rewrite lookup_empty.
  - apply NoDup_cons in Hnodup as [Hfresh Hnodup]. simpl in Hfresh.
    cbn [foldl fst snd].
    destruct (IH (zadd db key sc mem).1
                 (if (zadd db key sc mem).2 then c + 1 else c) Hnodup)
      as [Hlook Hcount].
    { intros m Hm. rewrite zadd_zsetOf, lookup_insert_ne by (by intros ->).
      apply Hsame. simpl. by apply list_elem_of_further. }
    cbv zeta in Hlook, Hcount. split.
    + intros m. rewrite Hlook, zadd_zsetOf. simpl.
      destruct (decide (mem = m)) as [->|Hne].
      * rewrite lookup_insert_eq.
        by rewrite (not_elem_of_list_to_map_1 _ _ Hfresh), lookup_insert_eq.
      * rewrite (lookup_insert_ne (list_to_map l)) by done.
        by rewrite lookup_insert_ne.
    + rewrite Hcount, zadd_isNew, filter_cons.
      assert (zexists db key mem = zexists db0 key mem) as ->.
      { unfold zexists. rewrite Hsame; [done|]. simpl. apply list_elem_of_here. }
      destruct (decide _) as [Hd|Hd]; simpl in Hd;
        destruct (zexists db0 key mem); simpl in *; try done; lia.
Qed.


(** C9. A well-formed ZADD on a key that is absent or holds a sorted set, in
    which a member may be listed more than once, whatever the order in which
    the loop visits [elems]: the reply is the number of distinct members of
    the call that were absent from the set before the call (each distinct
    member counts once if it was absent, and not at all otherwise); after
    the call every member of the call holds the last score given for it in
    argument order; the other members keep their scores. *)
Theorem zadd_duplicate_members (key : string) (args : list string) (st : State) :
  let db := getDB (selectedDB st) st in
  let st' := cmdZadd (key :: args) st in
  let db' := getDB (selectedDB st') st' in
  (∀ m, mapRange m ≡ₚ map_to_list m) →
  checkArgs ZADD (key :: args) = Parsed key →
  db_exists db key = false ∨ db_t db key = "zset" →
  replies st' = replies st
                ++ [RInt (countNew (λ m, negb (zexists db key m)) (callMembers args))]
  ∧ (∀ m, m ∈ callMembers args →
       is_Some (lastScoreOf args m) ∧ zsetOf db' key !! m = lastScoreOf args m)
  ∧ (∀ m, m ∉ callMembers args → zsetOf db' key !! m = zsetOf db key !! m).
Proof.
  intros db st' db' Hrange Hargs Htype.
  unfold checkArgs in Hargs. apply keyOf_Parsed in Hargs as ([k elems] & Hargs & _).
  assert (k = key ∧ zaddElems args ∅ = Some elems) as [-> Hel].
  { pose proof Hargs as Hargs'. unfold zaddArgs in Hargs'.
    destruct (_ <? _)%nat; [done|]. destruct (negb _); [done|].
    destruct (zaddElems args ∅); [|done]. by injection Hargs' as -> ->. }
  set (l := mapRange elems).
  assert (NoDup l.*1) as Hnodup.
  { subst l. rewrite (Hrange elems). apply NoDup_fst_map_to_list. }
  assert ((list_to_map l : gmap string float) = elems) as Hmap.
  { rewrite <- (list_to_map_to_list elems).
    apply list_to_map_proper; [done|]. apply Hrange. }
  destruct (zaddAll_loop key db l db 0 Hnodup) as [Hlook Hcount]; [done|].
  cbv zeta in Hlook, Hcount. rewrite Hmap in Hlook.
  assert (st' = WriteInt (zaddAll key l db).2
                  (putDB (selectedDB st) (zaddAll key l db).1 (enter st))) as Hst'.
  { subst st'. unfold cmdZadd. rewrite Hargs. unfold handle, withTx, zaddBody.
    fold (enter st).
    change (getDB (selectedDB st) (enter st)) with db.
    assert (db_exists db key && negb (String.eqb (db_t db key) "zset") = false)
      as ->; [|done].
    destruct Htype as [->| ->]; [done|]. by rewrite andb_false_r. }
  assert (db' = (zaddAll key l db).1) as Hdb'.
  { subst db'. rewrite Hst'. unfold getDB. simpl. by rewrite lookup_insert_eq. }
  assert (∀ m, m ∈ l.*1 ↔ m ∈ callMembers args) as Hmems.
  { intros m. rewrite (lastScoreOf_callMembers _ _ _ Hel).
    pose proof (zaddElems_lookup _ _ _ Hel m) as Hm. rewrite lookup_empty in Hm.
    subst l. rewrite (Hrange elems), list_elem_of_fmap. split.
    - intros ([m' sc] & -> & Hin%elem_of_map_to_list). simpl in *.
      rewrite Hin in Hm. destruct (lastScoreOf args m'); [eauto|done].
    - intros [sc Hsc]. rewrite Hsc in Hm. exists (m, sc). split; [done|].
      by apply elem_of_map_to_list. }
  rewrite Hdb', Hst'. unfold zaddAll in *. split; [|split].
  - rewrite Hcount. simpl. unfold countNew.
    assert (length (filter (λ e : string * float,
                              negb (zexists db key e.1) = true) l)
            = length (filter (λ m, negb (zexists db key m) = true) l.*1)) as ->.
    { apply (filter_fst_length (λ m, negb (zexists db key m))). }
    assert (l.*1 ≡ₚ remove_dups (callMembers args)) as Hperm.
    { apply NoDup_Permutation; [done|apply NoDup_remove_dups|].
      intros m. by rewrite elem_of_remove_dups. }
    by rewrite Z.add_0_l, Hperm.
  - intros m Hm.
    pose proof (zaddElems_lookup _ _ _ Hel m) as Hm'.
    apply (lastScoreOf_callMembers _ _ _ Hel) in Hm as [sc Hsc].
    rewrite Hlook, Hm', Hsc. eauto.
  - intros m Hm.
    pose proof (zaddElems_lookup _ _ _ Hel m) as Hm'.
    rewrite (lastScoreOf_callMembers _ _ _ Hel) in Hm.
    rewrite Hlook, Hm'. destruct (lastScoreOf args m); [|done].
    exfalso. eauto.
Qed.

End Zadd.

Lemma zadd_duplicate_members_witness :
  let st' := Sample.run ZADD ["z"; "5"; "a"; "7"; "d"; "8"; "d"] Sample.st0 in
  replies st' = [RInt 1]
  ∧ zsetOf (getDB 0 st') "z" !! "d" = Some 8%float
  ∧ zsetOf (getDB 0 st') "z" !! "a" = Some 5%float
  ∧ zsetOf (getDB 0 st') "z" !! "b" = Some 2%float.
Proof.
  destruct (@zadd_duplicate_members Sample.env "z" ["5"; "a"; "7"; "d"; "8"; "d"]
              Sample.st0) as (Hreply & Hin & Hout).
  - intros m. reflexivity.
  - reflexivity.
  - right. reflexivity.
  - split; [exact Hreply|]. split; [|split].
    + apply (Hin "d"). simpl. apply list_elem_of_further, list_elem_of_here.
    + apply (Hin "a"). simpl. apply list_elem_of_here.
    + apply (Hout "b"). simpl. intros Hb.
      repeat (apply elem_of_cons in Hb as [Hb|Hb]; [done|]).
      by apply elem_of_nil in Hb.
Defined.

(** ** The scans on sorted input *)

Section Scans.
Context {A : Type} (R : A → A → Prop) (p : A → bool).
Hypothesis p_upward : ∀ x y, R x y → p x = true → p y = true.

Lemma firstIndex_None (l : list A) :
  firstIndex p l = None → Forall (λ x, p x = false) l.
Proof.
  induction l as [|x l IH]; simpl; [constructor|].
  destruct (p x) eqn:Hx; [done|].
  destruct (firstIndex p l); [done|]. intros _. constructor; auto.
Qed.

Lemma filter_all (l : list A) :
  Forall (λ x, p x = true) l → filter (λ x, p x = true) l = l.
Proof.
  induction 1 as [|x l Hx _ IH]; [done|].
  by rewrite filter_cons_True, IH.
Qed.

Lemma filter_none (l : list A) :
  Forall (λ x, p x = false) l → filter (λ x, p x = true) l = [].
Proof.
  induction 1 as [|x l Hx _ IH]; [done|].
  rewrite filter_cons_False, IH; [done|]. by rewrite Hx.
Qed.

(** Cutting before the first element that satisfies an upward-closed test
    keeps exactly the elements that satisfy it, provided one does. *)
Lemma sliceFromFirst_sorted (l : list A) :
  StronglySorted R l → (∃ x, x ∈ l ∧ p x = true) →
  sliceFromFirst p l = filter (λ x, p x = true) l.
Proof.
  unfold sliceFromFirst.
  induction 1 as [|x l Hsorted IH Hx]; intros (y & Hy & Hpy).
  - by apply elem_of_nil in Hy.
  - simpl. destruct (p x) eqn:Hpx.
    + simpl. rewrite filter_cons_True by done. f_equal. symmetry.
      apply filter_all. eapply Forall_impl; [exact Hx|]. eauto.
    + rewrite filter_cons_False by (by rewrite Hpx).
      apply elem_of_cons in Hy as [->|Hy]; [congruence|].
      specialize (IH (ex_intro _ y (conj Hy Hpy))).
      destruct (firstIndex p l) as [i|] eqn:Hi; [done|].
      apply firstIndex_None in Hi.
      rewrite Forall_forall in Hi. rewrite (Hi y Hy) in Hpy. done.
Qed.

(** Cutting at the first element that satisfies an upward-closed test keeps
    exactly the elements that do not satisfy it. *)
Lemma sliceToFirst_sorted (l : list A) :
  StronglySorted R l →
  sliceToFirst p l = filter (λ x, p x = false) l.
Proof.
  unfold sliceToFirst.
  induction 1 as [|x l Hsorted IH Hx]; [done|].
  simpl. destruct (p x) eqn:Hpx.
  - simpl. rewrite filter_cons_False by (by rewrite Hpx).
    symmetry. clear IH Hsorted. induction Hx as [|y l Hy _ IH']; [done|].
    rewrite filter_cons_False; [exact IH'|].
    rewrite (p_upward _ _ Hy Hpx). discriminate.
  - rewrite filter_cons_True by done. rewrite <- IH.
    by destruct (firstIndex p l) as [i|].
Qed.

Lemma sliceFromFirst_StronglySorted (l : list A) :
  StronglySorted R l → StronglySorted R (sliceFromFirst p l).
Proof.
  unfold sliceFromFirst. intros Hsorted.
  destruct (firstIndex p l) as [i|]; [|done].
  revert i. induction Hsorted as [|x l Hsorted IH Hx]; intros i.
  - rewrite drop_nil. constructor.
  - destruct i as [|i]; simpl; [by constructor | apply IH].
Qed.

End Scans.

(** ** The order of strings *)

Lemma string_ltb_lt (a b : string) : String.ltb a b = true ↔ String_as_OT.lt a b.
Proof.
  rewrite <- String_as_OT.cmp_lt. unfold String.ltb, String_as_OT.cmp.
  by destruct (String.compare a b).
Qed.

Lemma string_leb_le (a b : string) :
  String.leb a b = true ↔ String_as_OT.lt a b ∨ a = b.
Proof.
  rewrite <- String_as_OT.cmp_lt, <- String_as_OT.cmp_eq.
  unfold String.leb, String_as_OT.cmp.
  destruct (String.compare a b); intuition discriminate.
Qed.

Lemma string_leb_trans (a b c : string) :
  String.leb a b = true → String.leb b c = true → String.leb a c = true.
Proof.
  rewrite !string_leb_le. intros [Hab| ->] [Hbc| ->]; eauto.
  left. eapply String_as_OT.lt_trans; eauto.
Qed.

Lemma string_ltb_leb_trans (a b c : string) :
  String.ltb a b = true → String.leb b c = true → String.ltb a c = true.
Proof.
  rewrite !string_ltb_lt, string_leb_le. intros Hab [Hbc| ->]; [|done].
  eapply String_as_OT.lt_trans; eauto.
Qed.

(** The order is total: [m > max] fails exactly when [m <= max]. *)
Lemma string_ltb_leb (a b : string) : String.ltb a b = negb (String.leb b a).
Proof.
  unfold String.ltb, String.leb.
  pose proof (String_as_OT.cmp_antisym b a) as Hanti.
  unfold String_as_OT.cmp in Hanti. rewrite Hanti.
  by destruct (String.compare a b).
Qed.

(** The two scans in a row, on sorted input, when some element passes the
    first test: what is left is what passes the first test and fails the
    second. *)
Lemma scans_sorted {A} (R : A → A → Prop) (pmin qmax : A → bool) (l : list A) :
  (∀ x y, R x y → pmin x = true → pmin y = true) →
  (∀ x y, R x y → qmax x = true → qmax y = true) →
  StronglySorted R l → (∃ x, x ∈ l ∧ pmin x = true) →
  sliceToFirst qmax (sliceFromFirst pmin l)
  = filter (λ x, pmin x && negb (qmax x) = true) l.
Proof.
  intros Hmin Hmax Hsorted Hsome.
  rewrite (sliceToFirst_sorted R qmax Hmax)
    by by apply sliceFromFirst_StronglySorted.
  rewrite (sliceFromFirst_sorted R pmin Hmin) by done.
  rewrite list_filter_filter. apply list_filter_iff. intros x.
  destruct (pmin x), (qmax x); simpl; intuition discriminate.
Qed.

Lemma withLexRange_min_sorted (members : list string) (min : string)
    (minIncl : bool) :
  lexSorted members →
  (min = "-" ∨ ∃ m, m ∈ members ∧ lexMinOk min minIncl m = true) →
  (if negb (String.eqb min "-") then
     if minIncl then sliceFromFirst (λ m, sge m min) members
     else sliceFromFirst (λ m, sgt m min) members
   else members)
  = filter (λ m, lexMinOk min minIncl m = true) members.
Proof.
  intros Hsorted Hsome. unfold lexMinOk.
  destruct (String.eqb_spec min "-") as [->|Hmin]; simpl.
  - symmetry. by apply (filter_all (λ _, true)), Forall_true.
  - destruct Hsome as [?|Hsome]; [done|]. unfold lexMinOk in Hsome.
    rewrite (proj2 (String.eqb_neq min "-") Hmin) in Hsome. simpl in Hsome.
    destruct minIncl;
      apply (sliceFromFirst_sorted (λ a b, String.leb a b = true)); try done;
      unfold sge, sgt; intros x y Hxy Hx.
    + eapply string_leb_trans; eauto.
    + eapply string_ltb_leb_trans; eauto.
Qed.

Lemma withLexRange_max_sorted (members : list string) (max : string)
    (maxIncl : bool) :
  lexSorted members →
  (if negb (String.eqb max "+") then
     if maxIncl then sliceToFirst (λ m, sgt m max) members
     else sliceToFirst (λ m, sge m max) members
   else members)
  = filter (λ m, lexMaxOk max maxIncl m = true) members.
Proof.
  intros Hsorted. unfold lexMaxOk.
  destruct (String.eqb_spec max "+") as [->|Hmax]; simpl.
  - symmetry. by apply (filter_all (λ _, true)), Forall_true.
  - destruct maxIncl.
    + rewrite (sliceToFirst_sorted (λ a b, String.leb a b = true)
                 (λ m, sgt m max)); [|unfold sgt|done].
      * apply list_filter_iff. intros m. unfold sgt.
        rewrite string_ltb_leb. by destruct (String.leb m max).
      * intros x y Hxy Hx. eapply string_ltb_leb_trans; eauto.
    + rewrite (sliceToFirst_sorted (λ a b, String.leb a b = true)
                 (λ m, sge m max)); [|unfold sge|done].
      * apply list_filter_iff. intros m. unfold sge.
        rewrite string_ltb_leb. by destruct (String.leb max m).
      * intros x y Hxy Hx. eapply string_leb_trans; eauto.
Qed.

Lemma filter_StronglySorted {A} (R : A → A → Prop) (p : A → bool) (l : list A) :
  StronglySorted R l → StronglySorted R (filter (λ x, p x = true) l).
Proof.
  induction 1 as [|x l Hsorted IH Hx]; [constructor|].
  rewrite filter_cons. destruct (decide (p x = true)); [|done].
  constructor; [done|]. rewrite Forall_forall in *.
  intros y [_ Hy]%list_elem_of_filter. by apply Hx.
Qed.

(** X2. [withLexRange] is empty whenever max is ["-"] or min is ["+"].
    Otherwise, on members in ascending bytewise
    order, when the minimum is ["-"] or some member reaches it,
    [withLexRange] returns exactly the members inside the range: ["-"] and
    ["+"] bound nothing, a concrete bound keeps the members that satisfy it
    per its inclusivity flag. *)
Theorem withLexRange_exact_when_min_reached (members : list string)
    (min : string) (minIncl : bool) (max : string) (maxIncl : bool) :
  (max = "-" ∨ min = "+" → withLexRange members min minIncl max maxIncl = [])
  ∧ (lexSorted members → max ≠ "-" → min ≠ "+" →
     (min = "-" ∨ ∃ m, m ∈ members ∧ lexMinOk min minIncl m = true) →
     withLexRange members min minIncl max maxIncl
     = filter (λ m, inLexRange min minIncl max maxIncl m = true) members).
Proof.
  split.
  { unfold withLexRange. intros [-> | ->]; [done|].
    by rewrite String.eqb_refl, orb_true_r. }
  intros Hsorted Hmax%String.eqb_neq Hmin%String.eqb_neq Hsome.
  unfold withLexRange. rewrite Hmax, Hmin. cbv zeta. cbn [orb].
  rewrite (withLexRange_min_sorted members min minIncl Hsorted Hsome).
  rewrite withLexRange_max_sorted by by apply filter_StronglySorted.
  rewrite list_filter_filter. apply list_filter_iff. intros m.
  unfold inLexRange.
  destruct (lexMinOk min minIncl m), (lexMaxOk max maxIncl m); simpl;
    intuition discriminate.
Qed.
(** ** The order of floats *)

Lemma keyCompare_le (k1 k2 : Z * Z * Z) : keyCompare k1 k2 ≠ Gt ↔ keyLe k1 k2.
Proof.
  unfold keyCompare, keyLe.
  destruct (Z.compare_spec k1.1.1 k2.1.1), (Z.compare_spec k1.1.2 k2.1.2),
    (Z.compare_spec k1.2 k2.2); split; intros Hk; try done; try lia.
Qed.

Lemma keyCompare_lt (k1 k2 : Z * Z * Z) : keyCompare k1 k2 = Lt ↔ keyLt k1 k2.
Proof.
  unfold keyCompare, keyLt.
  destruct (Z.compare_spec k1.1.1 k2.1.1), (Z.compare_spec k1.1.2 k2.1.2),
    (Z.compare_spec k1.2 k2.2); split; intros Hk; try done; try lia.
Qed.

Lemma keyCompare_refl (k : Z * Z * Z) : keyCompare k k = Eq.
Proof. unfold keyCompare. by rewrite !Z.compare_refl. Qed.

(** The comparison of floats is the comparison of their keys; a NaN compares
    with nothing. *)
Lemma SFcompare_floatKey (x y : spec_float) :
  SFcompare x y
  = match floatKey x, floatKey y with
    | Some kx, Some ky => Some (keyCompare kx ky)
    | _, _ => None
    end.
Proof.
  destruct x as [sx|sx| |sx mx ex], y as [sy|sy| |sy my ey];
    try destruct sx; try destruct sy; try reflexivity.
  unfold SFcompare, floatKey, keyCompare. cbn [fst snd].
  rewrite Z.compare_opp, (Z.compare_antisym ex ey).
  destruct (ex ?= ey); reflexivity.
Qed.

Lemma float_leb_key (a b : float) :
  PrimFloat.leb a b = true
  ↔ ∃ ka kb, floatKey (Prim2SF a) = Some ka ∧ floatKey (Prim2SF b) = Some kb
             ∧ keyLe ka kb.
Proof.
  rewrite FloatAxioms.leb_spec. unfold SFleb. rewrite SFcompare_floatKey.
  destruct (floatKey (Prim2SF a)) as [ka|], (floatKey (Prim2SF b)) as [kb|];
    try (split; [done | by intros (? & ? & ? & ? & ?)]).
  split.
  - intros Hle. exists ka, kb. repeat split. apply keyCompare_le.
    by destruct (keyCompare ka kb).
  - intros (? & ? & [= <-] & [= <-] & Hle%keyCompare_le).
    by destruct (keyCompare ka kb).
Qed.

Lemma float_ltb_key (a b : float) :
  PrimFloat.ltb a b = true
  ↔ ∃ ka kb, floatKey (Prim2SF a) = Some ka ∧ floatKey (Prim2SF b) = Some kb
             ∧ keyLt ka kb.
Proof.
  rewrite FloatAxioms.ltb_spec. unfold SFltb. rewrite SFcompare_floatKey.
  destruct (floatKey (Prim2SF a)) as [ka|], (floatKey (Prim2SF b)) as [kb|];
    try (split; [done | by intros (? & ? & ? & ? & ?)]).
  split.
  - intros Hlt. exists ka, kb. repeat split. apply keyCompare_lt.
    by destruct (keyCompare ka kb).
  - intros (? & ? & [= <-] & [= <-] & Hlt%keyCompare_lt). by rewrite Hlt.
Qed.

(** [f == f] holds exactly when [f] is not a NaN. *)
Lemma float_eqb_refl_key (a : float) :
  PrimFloat.eqb a a = true ↔ is_Some (floatKey (Prim2SF a)).
Proof.
  rewrite FloatAxioms.eqb_spec. unfold SFeqb. rewrite SFcompare_floatKey.
  destruct (floatKey (Prim2SF a)) as [ka|].
  - rewrite keyCompare_refl. split; eauto.
  - split; [done | by intros [? ?]].
Qed.

Lemma float_leb_trans (a b c : float) :
  PrimFloat.leb a b = true → PrimFloat.leb b c = true → PrimFloat.leb a c = true.
Proof.
  rewrite !float_leb_key.
  intros (ka & kb & Ha & Hb & Hab) (kb' & kc & Hb' & Hc & Hbc).
  exists ka, kc. repeat split; [done..|].
  rewrite Hb in Hb'. injection Hb' as <-. unfold keyLe in *. lia.
Qed.

Lemma float_ltb_leb_trans (a b c : float) :
  PrimFloat.ltb a b = true → PrimFloat.leb b c = true → PrimFloat.ltb a c = true.
Proof.
  rewrite !float_ltb_key, float_leb_key.
  intros (ka & kb & Ha & Hb & Hab) (kb' & kc & Hb' & Hc & Hbc).
  exists ka, kc. repeat split; [done..|].
  rewrite Hb in Hb'. injection Hb' as <-. unfold keyLe, keyLt in *. lia.
Qed.

(** Without NaN the order is total: [a > b] fails exactly when [a <= b]. *)
Lemma float_ltb_leb (a b : float) :
  PrimFloat.eqb a a = true → PrimFloat.eqb b b = true →
  PrimFloat.ltb b a = negb (PrimFloat.leb a b).
Proof.
  intros [ka Ha]%float_eqb_refl_key [kb Hb]%float_eqb_refl_key.
  destruct (PrimFloat.leb a b) eqn:Hle; simpl.
  - apply float_leb_key in Hle as (ka' & kb' & Ha' & Hb' & Hle).
    destruct (PrimFloat.ltb b a) eqn:Hlt; [|done].
    apply float_ltb_key in Hlt as (kb'' & ka'' & Hb'' & Ha'' & Hlt).
    simplify_eq. unfold keyLe, keyLt in *. lia.
  - apply float_ltb_key. exists kb, ka. repeat split; [done..|].
    destruct (decide (keyLe ka kb)) as [Hle'|Hle'].
    + assert (PrimFloat.leb a b = true) by (apply float_leb_key; eauto).
      congruence.
    + unfold keyLe, keyLt in *. lia.
Qed.

Lemma filter_ext_Forall {A} (p q : A → bool) (l : list A) :
  Forall (λ x, p x = q x) l →
  filter (λ x, p x = true) l = filter (λ x, q x = true) l.
Proof.
  induction 1 as [|x l Hx _ IH]; [done|].
  rewrite !filter_cons, IH, Hx. by destruct (decide (q x = true)).
Qed.

(** X1. On a snapshot in ascending score order
    without NaN scores, with a maximum that is not a NaN, whenever some
    element reaches the minimum bound, [withSSRange] returns exactly the
    elements inside the range per the inclusivity flags: all of them and no
    other. *)
Theorem withSSRange_exact_when_min_reached (elems : list ssElem)
    (min : float) (minIncl : bool) (max : float) (maxIncl : bool) :
  scoreSorted elems →
  PrimFloat.eqb max max = true →
  (∃ e, e ∈ elems ∧ minOk min minIncl e = true) →
  withSSRange elems min minIncl max maxIncl
  = filter (λ e, inScoreRange min minIncl max maxIncl e = true) elems.
Proof.
  intros [Hsorted Hnan] Hmax Hsome. unfold withSSRange.
  set (qmax := λ e : ssElem,
         if maxIncl then fgt (score e) max else fge (score e) max).
  assert ((if minIncl then sliceFromFirst (λ m, fge (score m) min) elems
           else sliceFromFirst (λ m, fgt (score m) min) elems)
          = sliceFromFirst (minOk min minIncl) elems) as ->.
  { unfold minOk. by destruct minIncl. }
  cbv zeta.
  assert (∀ l, (if maxIncl then sliceToFirst (λ m, fgt (score m) max) l
                else sliceToFirst (λ m, fge (score m) max) l)
               = sliceToFirst qmax l) as ->.
  { intros l. unfold qmax. by destruct maxIncl. }
  rewrite (scans_sorted (λ a b, PrimFloat.leb (score a) (score b) = true));
    [|unfold minOk, fge, fgt|unfold qmax, fge, fgt|done..].
  - apply filter_ext_Forall. eapply Forall_impl; [exact Hnan|].
    intros e He. simpl in He. unfold inScoreRange, maxOk, qmax, fge, fgt.
    f_equal. destruct maxIncl.
    + by rewrite (float_ltb_leb (score e) max), negb_involutive.
    + by rewrite (float_ltb_leb max (score e)).
  - intros x y Hxy. destruct minIncl; intros Hx.
    + eapply float_leb_trans; eauto.
    + eapply float_ltb_leb_trans; eauto.
  - intros x y Hxy. destruct maxIncl; intros Hx.
    + eapply float_ltb_leb_trans; eauto.
    + eapply float_leb_trans; eauto.
Qed.

Lemma withSSRange_exact_when_min_reached_witness :
  withSSRange (zelements Sample.db0 "z") 2 true 3 false
  = filter (λ e, inScoreRange 2 true 3 false e = true) (zelements Sample.db0 "z").
Proof.
  apply withSSRange_exact_when_min_reached.
  - split.
    + repeat constructor.
    + repeat constructor.
  - reflexivity.
  - exists (SSElem "b" 2). split; [|reflexivity].
    apply list_elem_of_further, list_elem_of_here.
Defined.

Lemma withLexRange_exact_when_min_reached_witness :
  withLexRange ["a"; "b"; "c"; "d"] "b" true "d" false
  = filter (λ m, inLexRange "b" true "d" false m = true) ["a"; "b"; "c"; "d"].
Proof.
  apply withLexRange_exact_when_min_reached.
  - repeat constructor.
  - done.
  - done.
  - right. exists "b". split; [|reflexivity].
    apply list_elem_of_further, list_elem_of_here.
Defined.

(** ** The dirty flag *)

Lemma foldl_keeps_ctx {B} (f : State → B → State) (l : list B) (st : State) :
  (∀ st b, dirty (f st b) = dirty st ∧ txEntered (f st b) = txEntered st) →
  dirty (foldl f st l) = dirty st ∧ txEntered (foldl f st l) = txEntered st.
Proof.
  intros Hf. revert st. induction l as [|b l IH]; intros st; [done|].
  simpl. destruct (IH (f st b)) as [-> ->]. apply Hf.
Qed.

Section Dirty.
Context `{GoEnv}.

(** No closure touches the dirty flag, and none enters [withTx] again. *)
Lemma closures_keep_ctx (v : verb) (rargs : list string) (key : string)
    (st : State) :
  checkArgs v rargs = Parsed key →
  dirty (commandsSortedSet v rargs st) = dirty st
  ∧ txEntered (commandsSortedSet v rargs st) = S (txEntered st).
Proof.
  intros Hargs.
  destruct v; unfold checkArgs in Hargs;
    try (apply keyOf_Parsed in Hargs as (a & Hargs & <-));
    unfold commandsSortedSet, cmdZadd, cmdZcard, cmdZcount, makeCmdZrange,
      cmdZrangebylex, makeCmdZrangebyscore, makeCmdZrank, cmdZrem, cmdZscore;
    rewrite Hargs; unfold handle, withTx; fold (enter st);
    change (dirty st) with (dirty (enter st));
    change (S (txEntered st)) with (txEntered (enter st));
    generalize (enter st); intros st';
    unfold zaddBody, zcardBody, zcountBody, zrangeBody, zrangebylexBody,
      zrangebyscoreBody, zrankBody, zremBody, zscoreBody, writeMembers.
  all: try (destruct a).
  all: repeat match goal with
       | |- context [if ?c then _ else _] => destruct c
       | |- context [match ?c with _ => _ end] => destruct c
       | |- context [let '(_, _) := ?c in _] => destruct c
       end; simpl; try done.
  all: match goal with
       | |- dirty (foldl ?f ?s ?l) = _ ∧ _ =>
           destruct (foldl_keeps_ctx f l s) as [-> ->]; [by intros|done]
       end.
Qed.

(** X3. A handler whose argument checks
    fail writes exactly one error and returns without entering the atomic
    section and without touching the databases; the dirty flag is set by
    every failing check that calls [setDirty] and keeps its value
    otherwise. A handler whose checks pass enters the atomic section once
    and leaves the dirty flag untouched. *)
Theorem argument_checks_outside_tx (v : verb) (rargs : list string) (st : State) :
  let st' := commandsSortedSet v rargs st in
  match checkArgs v rargs with
  | Malformed markDirty msg =>
      replies st' = replies st ++ [RError msg]
      ∧ txEntered st' = txEntered st
      ∧ dbs st' = dbs st
      ∧ dirty st' = markDirty || dirty st
  | Parsed key =>
      txEntered st' = S (txEntered st) ∧ dirty st' = dirty st
  end.
Proof.
  intros st'. subst st'. destruct (checkArgs v rargs) as [key|d msg] eqn:Hargs.
  - destruct (closures_keep_ctx v rargs key st Hargs) as [-> ->]. done.
  - rewrite (malformed_returns_early v rargs d msg st Hargs). by destruct d.
Qed.

End Dirty.

(** X4. The in-place loops of [reverseSlice] and [reverseElems] reverse
    their argument. *)
Theorem reverse_loops_reverse (o : list string) (e : list ssElem) :
  reverseSlice o = reverse o ∧ reverseElems e = reverse e.
Proof. split; apply reverseInPlace_reverse. Qed.

(** ** The scans on any input *)

Section ScansAnyInput.
Context {A : Type}.
Implicit Types (p q : A → bool) (l : list A).

Lemma firstIndex_None_2 p l :
  Forall (λ x, p x = false) l → firstIndex p l = None.
Proof.
  induction 1 as [|x l Hx _ IH]; [done|]. simpl. by rewrite Hx, IH.
Qed.

Lemma firstIndex_Some p l i :
  firstIndex p l = Some i →
  Forall (λ x, p x = false) (take i l)
  ∧ ∃ x, drop i l = x :: drop (S i) l ∧ p x = true.
Proof.
  revert i. induction l as [|y l IH]; intros i; simpl; [done|].
  destruct (p y) eqn:Hy.
  - intros [= <-]. split; [constructor|]. exists y. by rewrite drop_0.
  - destruct (firstIndex p l) as [j|]; [|done]. intros [= <-].
    destruct (IH j eq_refl) as [Hbefore Hat]. split; [|done].
    simpl. by constructor.
Qed.

(** The minimum scan returns a suffix of its input: everything, when no
    element passes the test, and otherwise the part that starts at the first
    element that passes it. *)
Lemma sliceFromFirst_cases p l :
  (Forall (λ x, p x = false) l ∧ sliceFromFirst p l = l)
  ∨ ∃ pre x rest, l = pre ++ x :: rest ∧ sliceFromFirst p l = x :: rest
                  ∧ p x = true ∧ Forall (λ x, p x = false) pre.
Proof.
  unfold sliceFromFirst. destruct (firstIndex p l) as [i|] eqn:Hi.
  - right. destruct (firstIndex_Some p l i Hi) as [Hbefore (x & Hx & Hpx)].
    exists (take i l), x, (drop (S i) l). repeat split; [|done..].
    by rewrite <- Hx, take_drop.
  - left. split; [by apply firstIndex_None|done].
Qed.

(** The maximum scan returns the longest prefix without an element that
    passes the test. *)
Lemma sliceToFirst_cases q l :
  Forall (λ x, q x = false) (sliceToFirst q l)
  ∧ ∃ post, l = sliceToFirst q l ++ post.
Proof.
  unfold sliceToFirst. destruct (firstIndex q l) as [i|] eqn:Hi.
  - destruct (firstIndex_Some q l i Hi) as [Hbefore _]. split; [done|].
    exists (drop i l). by rewrite take_drop.
  - split; [by apply firstIndex_None|]. exists []. by rewrite app_nil_r.
Qed.

Lemma sliceToFirst_fixed q l :
  Forall (λ x, q x = false) l → sliceToFirst q l = l.
Proof. intros Hl. unfold sliceToFirst. by rewrite firstIndex_None_2. Qed.

Lemma sliceFromFirst_fixed p x l : p x = true → sliceFromFirst p (x :: l) = x :: l.
Proof. intros Hx. unfold sliceFromFirst. simpl. by rewrite Hx. Qed.

Lemma sliceFromFirst_unmatched p l :
  Forall (λ x, p x = false) l → sliceFromFirst p l = l.
Proof. intros Hl. unfold sliceFromFirst. by rewrite firstIndex_None_2. Qed.

Lemma sliceToFirst_idempotent q l :
  sliceToFirst q (sliceToFirst q l) = sliceToFirst q l.
Proof. apply sliceToFirst_fixed, sliceToFirst_cases. Qed.

Lemma sliceFromFirst_idempotent p l :
  sliceFromFirst p (sliceFromFirst p l) = sliceFromFirst p l.
Proof.
  destruct (sliceFromFirst_cases p l)
    as [[Hnone ->]|(pre & x & rest & _ & -> & Hx & _)].
  - by apply sliceFromFirst_unmatched.
  - by apply sliceFromFirst_fixed.
Qed.

(** Both scans in a row: the result is a contiguous segment of the input,
    and scanning it again changes nothing. *)
Lemma scans_segment p q l :
  ∃ pre post, l = pre ++ sliceToFirst q (sliceFromFirst p l) ++ post.
Proof.
  destruct (sliceToFirst_cases q (sliceFromFirst p l)) as [_ [post Hpost]].
  destruct (sliceFromFirst_cases p l)
    as [[_ Hall]|(pre & x & rest & Hl & Hcut & _ & _)].
  - exists [], post. simpl. by rewrite <- Hpost.
  - exists pre, post. by rewrite <- Hpost, Hcut.
Qed.

Lemma sliceFromFirst_segment p l :
  ∃ pre post, l = pre ++ sliceFromFirst p l ++ post.
Proof.
  destruct (sliceFromFirst_cases p l)
    as [[_ Hall]|(pre & x & rest & Hl & Hcut & _ & _)].
  - exists [], []. by rewrite Hall, app_nil_r.
  - exists pre, []. by rewrite Hcut, app_nil_r.
Qed.

Lemma sliceToFirst_segment q l :
  ∃ pre post, l = pre ++ sliceToFirst q l ++ post.
Proof.
  destruct (sliceToFirst_cases q l) as [_ [post Hpost]]. by exists [], post.
Qed.

Lemma scans_idempotent p q l :
  sliceToFirst q (sliceFromFirst p (sliceToFirst q (sliceFromFirst p l)))
  = sliceToFirst q (sliceFromFirst p l).
Proof.
  destruct (sliceToFirst_cases q (sliceFromFirst p l)) as [Hnoq [post Hpost]].
  assert (sliceFromFirst p (sliceToFirst q (sliceFromFirst p l))
          = sliceToFirst q (sliceFromFirst p l)) as ->;
    [|by apply sliceToFirst_fixed].
  destruct (sliceFromFirst_cases p l)
    as [[Hnone Hall]|(pre & x & rest & Hl & Hcut & Hx & _)].
  - apply sliceFromFirst_unmatched. rewrite Hall in *.
    rewrite Hpost in Hnone. by apply Forall_app in Hnone as [? _].
  - rewrite Hcut in *.
    destruct (sliceToFirst q (x :: rest)) as [|y rest'] eqn:Hcut'; [done|].
    injection Hpost as <- _. by apply sliceFromFirst_fixed.
Qed.

End ScansAnyInput.

(** X5. On every input, sorted or not, [withSSRange] and [withLexRange]
    return a contiguous segment of the sequence they are given, in the same
    order, and applying the same range to the result changes nothing. *)
Theorem range_scans_segment_idempotent
    (elems : list ssElem) (min : float) (minIncl : bool) (max : float)
    (maxIncl : bool)
    (members : list string) (lmin : string) (lminIncl : bool) (lmax : string)
    (lmaxIncl : bool) :
  (∃ pre post, elems = pre ++ withSSRange elems min minIncl max maxIncl ++ post)
  ∧ withSSRange (withSSRange elems min minIncl max maxIncl) min minIncl max maxIncl
    = withSSRange elems min minIncl max maxIncl
  ∧ (∃ pre post,
       members = pre ++ withLexRange members lmin lminIncl lmax lmaxIncl ++ post)
  ∧ withLexRange (withLexRange members lmin lminIncl lmax lmaxIncl)
                 lmin lminIncl lmax lmaxIncl
    = withLexRange members lmin lminIncl lmax lmaxIncl.
Proof.
  split; [|split; [|split]].
  - unfold withSSRange. destruct minIncl, maxIncl; apply scans_segment.
  - unfold withSSRange. destruct minIncl, maxIncl; apply scans_idempotent.
  - unfold withLexRange.
    destruct (String.eqb lmax "-" || String.eqb lmin "+").
    { by exists [], members. }
    destruct (negb (String.eqb lmin "-")), (negb (String.eqb lmax "+")).
    + destruct lminIncl, lmaxIncl; apply scans_segment.
    + destruct lminIncl; apply sliceFromFirst_segment.
    + destruct lmaxIncl; apply sliceToFirst_segment.
    + exists [], []. by rewrite app_nil_r.
  - unfold withLexRange.
    destruct (String.eqb lmax "-" || String.eqb lmin "+"); [done|].
    destruct (negb (String.eqb lmin "-")), (negb (String.eqb lmax "+")).
    + destruct lminIncl, lmaxIncl; apply scans_idempotent.
    + destruct lminIncl; apply sliceFromFirst_idempotent.
    + destruct lmaxIncl; apply sliceToFirst_idempotent.
    + done.
Qed.

(** ** The ranges on sorted input, whether or not the minimum is reached *)

Lemma withSSRange_scans (elems : list ssElem) (min : float) (minIncl : bool)
    (max : float) (maxIncl : bool) :
  withSSRange elems min minIncl max maxIncl
  = sliceToFirst (λ e, if maxIncl then fgt (score e) max else fge (score e) max)
                 (sliceFromFirst (minOk min minIncl) elems).
Proof. unfold withSSRange, minOk. by destruct minIncl, maxIncl. Qed.

Lemma scoreSorted_sliceFromFirst (p : ssElem → bool) (elems : list ssElem) :
  scoreSorted elems → scoreSorted (sliceFromFirst p elems).
Proof.
  intros [Hsorted Hnan]. split; [by apply sliceFromFirst_StronglySorted|].
  destruct (sliceFromFirst_segment p elems) as (pre & post & Hseg).
  rewrite Hseg in Hnan.
  by apply Forall_app in Hnan as [_ [? _]%Forall_app].
Qed.

Lemma list_filter_iff_Forall {A} (P Q : A → Prop)
    `{!∀ x, Decision (P x), !∀ x, Decision (Q x)} (l : list A) :
  Forall (λ x, P x ↔ Q x) l → filter P l = filter Q l.
Proof.
  induction 1 as [|x l Hx _ IH]; [done|].
  rewrite !filter_cons, IH.
  destruct (decide (P x)), (decide (Q x)); tauto.
Qed.

(** On a sorted snapshot the maximum scan keeps exactly the elements within
    the maximum. *)
Lemma maxScan_sorted (elems : list ssElem) (max : float) (maxIncl : bool) :
  scoreSorted elems → PrimFloat.eqb max max = true →
  sliceToFirst (λ e, if maxIncl then fgt (score e) max else fge (score e) max)
               elems
  = filter (λ e, maxOk max maxIncl e = true) elems.
Proof.
  intros [Hsorted Hnan] Hmax.
  rewrite (sliceToFirst_sorted (λ a b, PrimFloat.leb (score a) (score b) = true));
    [|unfold fge, fgt|done].
  - apply list_filter_iff_Forall.
    eapply Forall_impl; [exact Hnan|]. intros e He. simpl in He.
    unfold maxOk, fge, fgt. destruct maxIncl.
    + rewrite (float_ltb_leb (score e) max) by done.
      by destruct (PrimFloat.leb (score e) max).
    + rewrite (float_ltb_leb max (score e)) by done.
      by destruct (PrimFloat.leb max (score e)).
  - intros x y Hxy. destruct maxIncl; intros Hx.
    + eapply float_ltb_leb_trans; eauto.
    + eapply float_leb_trans; eauto.
Qed.

(** X6. On a snapshot in ascending score order without NaN scores, with a
    maximum that is not a NaN, whether or not any element reaches the
    minimum: [withSSRange] never leaves out an element that is inside the
    range, and every element it returns is an element of the snapshot within
    the maximum bound. When no element reaches the minimum, it returns all
    the elements within the maximum bound. *)
Theorem withSSRange_sorted_complete (elems : list ssElem)
    (min : float) (minIncl : bool) (max : float) (maxIncl : bool) :
  scoreSorted elems →
  PrimFloat.eqb max max = true →
  (∀ e, e ∈ elems → inScoreRange min minIncl max maxIncl e = true →
        e ∈ withSSRange elems min minIncl max maxIncl)
  ∧ (∀ e, e ∈ withSSRange elems min minIncl max maxIncl →
          e ∈ elems ∧ maxOk max maxIncl e = true)
  ∧ (Forall (λ e, minOk min minIncl e = false) elems →
     withSSRange elems min minIncl max maxIncl
     = filter (λ e, maxOk max maxIncl e = true) elems).
Proof.
  intros Hsorted Hmax.
  rewrite withSSRange_scans.
  rewrite maxScan_sorted by (done || by apply scoreSorted_sliceFromFirst).
  destruct (sliceFromFirst_segment (minOk min minIncl) elems)
    as (pre & post & Hseg).
  split; [|split].
  - intros e He [Hmin Hmx]%andb_prop. apply list_elem_of_filter. split; [done|].
    destruct (sliceFromFirst_cases (minOk min minIncl) elems)
      as [[Hnone _]|(pre' & x & rest & Hl & _ & Hx & _)].
    + rewrite Forall_forall in Hnone. by rewrite (Hnone e He) in Hmin.
    + rewrite (sliceFromFirst_sorted
                 (λ a b, PrimFloat.leb (score a) (score b) = true)).
      * by apply list_elem_of_filter.
      * intros a b Hab. unfold minOk, fge, fgt. destruct minIncl; intros Ha.
        -- eapply float_leb_trans; eauto.
        -- eapply float_ltb_leb_trans; eauto.
      * apply Hsorted.
      * exists x. split; [|done]. rewrite Hl.
        apply elem_of_app. right. apply list_elem_of_here.
  - intros e [Hmx He]%list_elem_of_filter. split; [|done].
    rewrite Hseg. apply elem_of_app. right. apply elem_of_app. by left.
  - intros Hnone. by rewrite sliceFromFirst_unmatched.
Qed.

Lemma withSSRange_sorted_complete_witness :
  SSElem "b" 2 ∈ withSSRange (zelements Sample.db0 "z") 2 true 3 false.
Proof.
  destruct (withSSRange_sorted_complete (zelements Sample.db0 "z") 2 true 3 false)
    as (Hin & _ & _).
  - split; repeat constructor.
  - reflexivity.
  - apply (Hin (SSElem "b" 2)); [|reflexivity].
    apply list_elem_of_further, list_elem_of_here.
Defined.

Lemma lexMinScan_sorted (members : list string) (min : string) (minIncl : bool) :
  lexSorted members →
  let stage :=
    if negb (String.eqb min "-") then
      if minIncl then sliceFromFirst (λ m, sge m min) members
      else sliceFromFirst (λ m, sgt m min) members
    else members in
  lexSorted stage
  ∧ (∃ pre post, members = pre ++ stage ++ post)
  ∧ (Forall (λ m, lexMinOk min minIncl m = false) members → stage = members).
Proof.
  intros Hsorted stage. subst stage. unfold lexMinOk.
  destruct (String.eqb min "-"); simpl.
  - split; [done|]. split; [|done]. exists [], []. by rewrite app_nil_r.
  - destruct minIncl.
    + split; [by apply sliceFromFirst_StronglySorted|].
      split; [apply sliceFromFirst_segment | apply sliceFromFirst_unmatched].
    + split; [by apply sliceFromFirst_StronglySorted|].
      split; [apply sliceFromFirst_segment | apply sliceFromFirst_unmatched].
Qed.

(** X7. On members in ascending bytewise order and a range whose ends are
    not the impossible ones (max ["-"], min ["+"]), whether or not any
    member reaches the minimum: [withLexRange] never leaves out a member
    that is inside the range, and every member it returns is a member of the
    list within the maximum bound. When no member reaches the minimum, it
    returns all the members within the maximum bound. *)
Theorem withLexRange_sorted_complete (members : list string)
    (min : string) (minIncl : bool) (max : string) (maxIncl : bool) :
  lexSorted members → max ≠ "-" → min ≠ "+" →
  (∀ m, m ∈ members → inLexRange min minIncl max maxIncl m = true →
        m ∈ withLexRange members min minIncl max maxIncl)
  ∧ (∀ m, m ∈ withLexRange members min minIncl max maxIncl →
          m ∈ members ∧ lexMaxOk max maxIncl m = true)
  ∧ (Forall (λ m, lexMinOk min minIncl m = false) members →
     withLexRange members min minIncl max maxIncl
     = filter (λ m, lexMaxOk max maxIncl m = true) members).
Proof.
  intros Hsorted Hmax%String.eqb_neq Hmin%String.eqb_neq.
  destruct (lexMinScan_sorted members min minIncl Hsorted)
    as (Hstage & (pre & post & Hseg) & Hunmatched).
  unfold withLexRange. rewrite Hmax, Hmin. cbv zeta. cbn [orb].
  rewrite withLexRange_max_sorted by done.
  split; [|split].
  - intros m Hm [Hmn Hmx]%andb_prop. apply list_elem_of_filter. split; [done|].
    rewrite withLexRange_min_sorted; [by apply list_elem_of_filter|done|].
    right. eauto.
  - intros m [Hmx Hm]%list_elem_of_filter. split; [|done].
    rewrite Hseg. apply elem_of_app. right. apply elem_of_app. by left.
  - intros Hnone. by rewrite Hunmatched.
Qed.

Lemma withLexRange_sorted_complete_witness :
  "c" ∈ withLexRange ["a"; "b"; "c"; "d"] "b" true "d" false.
Proof.
  destruct (withLexRange_sorted_complete ["a"; "b"; "c"; "d"] "b" true "d" false)
    as (Hin & _ & _).
  - repeat constructor.
  - done.
  - done.
  - apply (Hin "c"); [|reflexivity].
    apply list_elem_of_further, list_elem_of_further, list_elem_of_here.
Defined.

(** ** Bracketed sentinels *)

Lemma withLexRange_min_sentinel (members : list string) (min : string)
    (minIncl minIncl' : bool) (max : string) (maxIncl : bool) :
  min = "-" ∨ min = "+" →
  withLexRange members min minIncl max maxIncl
  = withLexRange members min minIncl' max maxIncl.
Proof.
  unfold withLexRange. intros [-> | ->]; simpl; [done|].
  by rewrite !orb_true_r.
Qed.

Lemma withLexRange_max_sentinel (members : list string) (min : string)
    (minIncl : bool) (max : string) (maxIncl maxIncl' : bool) :
  max = "-" ∨ max = "+" →
  withLexRange members min minIncl max maxIncl
  = withLexRange members min minIncl max maxIncl'.
Proof. unfold withLexRange. by intros [-> | ->]. Qed.

Section BracketedSentinels.
Context `{GoEnv}.

Lemma zrangebylexBody_min_sentinel (key min : string) (minIncl minIncl' : bool)
    (max : string) (maxIncl : bool) (limit : option (Z * Z)) (sel : Z) (st : State) :
  min = "-" ∨ min = "+" →
  zrangebylexBody (mkLexRange key min minIncl max maxIncl limit) sel st
  = zrangebylexBody (mkLexRange key min minIncl' max maxIncl limit) sel st.
Proof.
  intros Hmin. unfold zrangebylexBody, zrangebylexMembers. simpl.
  by rewrite (withLexRange_min_sentinel _ min minIncl minIncl').
Qed.

Lemma zrangebylexBody_max_sentinel (key min : string) (minIncl : bool)
    (max : string) (maxIncl maxIncl' : bool) (limit : option (Z * Z)) (sel : Z)
    (st : State) :
  max = "-" ∨ max = "+" →
  zrangebylexBody (mkLexRange key min minIncl max maxIncl limit) sel st
  = zrangebylexBody (mkLexRange key min minIncl max maxIncl' limit) sel st.
Proof.
  intros Hmax. unfold zrangebylexBody, zrangebylexMembers. simpl.
  by rewrite (withLexRange_max_sentinel _ min minIncl max maxIncl maxIncl').
Qed.

(** X8. In ZRANGEBYLEX a bound written ["[-"] or ["(-"] is taken for the
    sentinel ["-"], and ["[+"] or ["(+"] for the sentinel ["+"], as minimum
    and as maximum: the command does exactly what it does for the bare
    sentinel, so a member named ["-"] or ["+"] cannot serve as a bound. *)
Theorem zrangebylex_bracketed_sentinel (key other tok sentinel : string)
    (rest : list string) (st : State) :
  (tok, sentinel) ∈ [("[-", "-"); ("(-", "-"); ("[+", "+"); ("(+", "+")] →
  cmdZrangebylex (key :: tok :: other :: rest) st
  = cmdZrangebylex (key :: sentinel :: other :: rest) st
  ∧ cmdZrangebylex (key :: other :: tok :: rest) st
    = cmdZrangebylex (key :: other :: sentinel :: rest) st.
Proof.
  intros Htok.
  assert (∃ incl, parseLexrange tok = Some (sentinel, incl)
                  ∧ parseLexrange sentinel = Some (sentinel, false)
                  ∧ (sentinel = "-" ∨ sentinel = "+")) as (incl & Htk & Hsn & Hs).
  { repeat (apply elem_of_cons in Htok as [[= -> ->]|Htok];
            [by eexists; repeat split; eauto|]).
    by apply elem_of_nil in Htok. }
  unfold cmdZrangebylex, zrangebylexArgs. rewrite Htk, Hsn. split.
  - destruct (parseLexrange other) as [[mx mxI]|]; [|done].
    destruct (lexOptions rest None) as [limit|d msg]; [|done].
    unfold handle, withTx. by apply zrangebylexBody_min_sentinel.
  - destruct (parseLexrange other) as [[mn mnI]|]; [|done].
    destruct (lexOptions rest None) as [limit|d msg]; [|done].
    unfold handle, withTx. by apply zrangebylexBody_max_sentinel.
Qed.

End BracketedSentinels.

Lemma zrangebylex_bracketed_sentinel_witness :
  @cmdZrangebylex Sample.env ["z"; "[-"; "[b"] Sample.st0
  = @cmdZrangebylex Sample.env ["z"; "-"; "[b"] Sample.st0.
Proof.
  apply (@zrangebylex_bracketed_sentinel Sample.env "z" "[b" "[-" "-" [] Sample.st0).
  apply list_elem_of_here.
Defined.

(** ** Paging with LIMIT *)

Lemma applyLimit_nonneg {A} (l : list A) (offset count : Z) :
  0 ≤ offset → 0 ≤ count →
  applyLimit l offset count = take (Z.to_nat count) (drop (Z.to_nat offset) l).
Proof.
  intros Ho Hc. rewrite applyLimit_limited. unfold limited.
  destruct (decide (offset < 0)); [lia|].
  destruct (decide (Z.of_nat (length l) ≤ offset)).
  - rewrite drop_ge by lia. by rewrite take_nil.
  - by rewrite decide_True.
Qed.

Lemma applyLimit_unlimited {A} (l : list A) (offset count : Z) :
  0 ≤ offset → count < 0 →
  applyLimit l offset count = drop (Z.to_nat offset) l.
Proof.
  intros Ho Hc. rewrite applyLimit_limited. unfold limited.
  destruct (decide (offset < 0)); [lia|].
  destruct (decide (Z.of_nat (length l) ≤ offset)).
  - by rewrite drop_ge by lia.
  - by rewrite decide_False by lia.
Qed.

Lemma applyLimit_pages {A} (l : list A) (offset count count' : Z) :
  0 ≤ offset → 0 ≤ count →
  applyLimit l offset count ++ applyLimit l (offset + count) count'
  = applyLimit l offset (if decide (0 ≤ count') then count + count' else count').
Proof.
  intros Ho Hc. rewrite (applyLimit_nonneg l offset count) by done.
  assert (drop (Z.to_nat (offset + count)) l
          = drop (Z.to_nat count) (drop (Z.to_nat offset) l)) as Hdrop.
  { rewrite drop_drop. f_equal. lia. }
  case_decide as Hc'.
  - rewrite !applyLimit_nonneg by lia. rewrite Hdrop, take_take_drop.
    f_equal. lia.
  - rewrite !applyLimit_unlimited by lia. rewrite Hdrop. apply take_drop.
Qed.

Section LimitPages.
Context `{GoEnv}.

(** X9. Pages of a LIMIT clause fit together. Take three well-formed calls
    of ZRANGEBYSCORE or ZREVRANGEBYSCORE (or of ZRANGEBYLEX) on a key that
    holds a sorted set, alike but for their LIMIT clause: offset count,
    then offset+count count', then offset count+count' (offset count' when
    count' is negative, that is, unlimited), with an offset and a count
    that are not negative. The third call writes the elements the first
    call writes followed by those the second writes: nothing is lost and
    nothing is written twice. A call with LIMIT 0 and a negative count does
    what the call without LIMIT does. *)
Theorem limit_pages_fit_together (offset count count' : Z) (st : State) :
  0 ≤ offset → 0 ≤ count →
  let db := getDB (selectedDB st) st in
  let total := if decide (0 ≤ count') then count + count' else count' in
  (∀ (reverse : bool) (cmd : string) (r : scoreRange) (withScores : bool)
     (page1 page2 both : list string),
     zrangebyscoreArgs cmd page1
       = Parsed (mkScoreQuery r withScores (Some (offset, count))) →
     zrangebyscoreArgs cmd page2
       = Parsed (mkScoreQuery r withScores (Some (offset + count, count'))) →
     zrangebyscoreArgs cmd both
       = Parsed (mkScoreQuery r withScores (Some (offset, total))) →
     db_exists db (sr_key r) = true →
     db_t db (sr_key r) = "zset" →
     ∃ p1 p2,
       makeCmdZrangebyscore cmd reverse page1 st
         = writes (elemsReply withScores p1) (enter st)
       ∧ makeCmdZrangebyscore cmd reverse page2 st
         = writes (elemsReply withScores p2) (enter st)
       ∧ makeCmdZrangebyscore cmd reverse both st
         = writes (elemsReply withScores (p1 ++ p2)) (enter st))
  ∧ (∀ (key min max : string) (minIncl maxIncl : bool)
       (page1 page2 both : list string),
       zrangebylexArgs page1
         = Parsed (mkLexRange key min minIncl max maxIncl (Some (offset, count))) →
       zrangebylexArgs page2
         = Parsed (mkLexRange key min minIncl max maxIncl
                              (Some (offset + count, count'))) →
       zrangebylexArgs both
         = Parsed (mkLexRange key min minIncl max maxIncl (Some (offset, total))) →
       db_exists db key = true →
       db_t db key = "zset" →
       ∃ p1 p2,
         cmdZrangebylex page1 st
           = writes (RLen (Z.of_nat (length p1)) :: (RBulk <$> p1)) (enter st)
         ∧ cmdZrangebylex page2 st
           = writes (RLen (Z.of_nat (length p2)) :: (RBulk <$> p2)) (enter st)
         ∧ cmdZrangebylex both st
           = writes (RLen (Z.of_nat (length (p1 ++ p2))) :: (RBulk <$> p1 ++ p2))
                    (enter st))
  ∧ (count' < 0 →
     (∀ (reverse : bool) (cmd : string) (r : scoreRange) (withScores : bool)
        (all plain : list string),
        zrangebyscoreArgs cmd all
          = Parsed (mkScoreQuery r withScores (Some (0, count'))) →
        zrangebyscoreArgs cmd plain = Parsed (mkScoreQuery r withScores None) →
        makeCmdZrangebyscore cmd reverse all st
        = makeCmdZrangebyscore cmd reverse plain st)
     ∧ (∀ (key min max : string) (minIncl maxIncl : bool) (all plain : list string),
          zrangebylexArgs all
            = Parsed (mkLexRange key min minIncl max maxIncl (Some (0, count'))) →
          zrangebylexArgs plain
            = Parsed (mkLexRange key min minIncl max maxIncl None) →
          cmdZrangebylex all st = cmdZrangebylex plain st)).
Proof.
  intros Ho Hc db total. split; [|split].
  - intros reverse cmd r ws page1 page2 both H1 H2 H3 Hex Hty.
    eexists _, _.
    rewrite (makeCmdZrangebyscore_writes cmd reverse page1 _ st H1 Hex Hty).
    rewrite (makeCmdZrangebyscore_writes cmd reverse page2 _ st H2 Hex Hty).
    rewrite (makeCmdZrangebyscore_writes cmd reverse both _ st H3 Hex Hty).
    split; [reflexivity|]. split; [reflexivity|].
    unfold zrangebyscoreElems. cbn [sq_limit sq_range sq_withScores].
    by rewrite applyLimit_pages.
  - intros key min max minIncl maxIncl page1 page2 both H1 H2 H3 Hex Hty.
    eexists _, _.
    rewrite (cmdZrangebylex_writes page1 _ st H1 Hex Hty).
    rewrite (cmdZrangebylex_writes page2 _ st H2 Hex Hty).
    rewrite (cmdZrangebylex_writes both _ st H3 Hex Hty).
    split; [reflexivity|]. split; [reflexivity|].
    unfold zrangebylexMembers.
    cbn [lr_limit lr_key lr_min lr_minIncl lr_max lr_maxIncl].
    by rewrite applyLimit_pages.
  - intros Hc'. split.
    + intros reverse cmd r ws all plain Hall Hplain.
      unfold makeCmdZrangebyscore. rewrite Hall, Hplain. cbn [handle].
      unfold withTx, zrangebyscoreBody, zrangebyscoreElems.
      cbn [sq_limit sq_range sq_withScores].
      rewrite applyLimit_unlimited by lia. by rewrite drop_0.
    + intros key min max minIncl maxIncl all plain Hall Hplain.
      unfold cmdZrangebylex. rewrite Hall, Hplain. cbn [handle].
      unfold withTx, zrangebylexBody, zrangebylexMembers.
      cbn [lr_limit lr_key lr_min lr_minIncl lr_max lr_maxIncl].
      rewrite applyLimit_unlimited by lia. by rewrite drop_0.
Qed.

End LimitPages.

Lemma limit_pages_fit_together_witness :
  ∃ p1 p2,
    replies (Sample.run ZRANGEBYLEX ["z"; "-"; "+"; "LIMIT"; "0"; "1"] Sample.st0)
      = RLen (Z.of_nat (length p1)) :: (RBulk <$> p1)
    ∧ replies (Sample.run ZRANGEBYLEX ["z"; "-"; "+"; "LIMIT"; "1"; "2"] Sample.st0)
      = RLen (Z.of_nat (length p2)) :: (RBulk <$> p2)
    ∧ replies (Sample.run ZRANGEBYLEX ["z"; "-"; "+"; "LIMIT"; "0"; "3"] Sample.st0)
      = RLen (Z.of_nat (length (p1 ++ p2))) :: (RBulk <$> p1 ++ p2).
Proof.
  destruct (@limit_pages_fit_together Sample.env 0 1 2 Sample.st0) as (_ & Hlex & _);
    [lia..|].
  destruct (Hlex "z" "-" "+" false false
              ["z"; "-"; "+"; "LIMIT"; "0"; "1"]
              ["z"; "-"; "+"; "LIMIT"; "1"; "2"]
              ["z"; "-"; "+"; "LIMIT"; "0"; "3"])
    as (p1 & p2 & H1 & H2 & H3); try reflexivity.
  exists p1, p2. unfold Sample.run, commandsSortedSet.
  rewrite H1, H2, H3, !replies_writes. repeat split.
Defined.

(** ** Trailing options *)

Section Options.
Context `{GoEnv}.

Lemma scoreOptions_app (args more : list string) :
  ∀ withScores limit withScores' limit',
  scoreOptions args withScores limit = Parsed (withScores', limit') →
  scoreOptions (args ++ more) withScores limit
  = scoreOptions more withScores' limit'.
Proof.
  assert (∀ n args, (length args ≤ n)%nat →
            ∀ withScores limit withScores' limit',
              scoreOptions args withScores limit = Parsed (withScores', limit') →
              scoreOptions (args ++ more) withScores limit
              = scoreOptions more withScores' limit') as Hind;
    [|by apply (Hind (length args))].
  clear args. induction n as [|n IH]; intros args Hlen ws lim ws' lim' Hargs.
  - destruct args; [|simpl in Hlen; lia]. simpl in *. by injection Hargs as -> ->.
  - destruct args as [|a args]; simpl in *.
    { by injection Hargs as -> ->. }
    destruct (String.eqb (ToLower a) "limit").
    + destruct args as [|s [|e rest]]; try done. simpl in *.
      destruct (Atoi s) as [limitStart|]; [|done].
      destruct (Atoi e) as [limitEnd|]; [|done].
      apply IH; [lia|done].
    + destruct (String.eqb (ToLower a) "withscores"); [|done].
      apply IH; [lia|done].
Qed.

Lemma lexOptions_app (args more : list string) :
  ∀ limit limit',
  lexOptions args limit = Parsed limit' →
  lexOptions (args ++ more) limit = lexOptions more limit'.
Proof.
  assert (∀ n args, (length args ≤ n)%nat →
            ∀ limit limit',
              lexOptions args limit = Parsed limit' →
              lexOptions (args ++ more) limit = lexOptions more limit') as Hind;
    [|by apply (Hind (length args))].
  clear args. induction n as [|n IH]; intros args Hlen lim lim' Hargs.
  - destruct args; [|simpl in Hlen; lia]. simpl in *. by injection Hargs as ->.
  - destruct args as [|a args]; simpl in *.
    { by injection Hargs as ->. }
    destruct (String.eqb (ToLower a) "limit"); [|done].
    destruct args as [|s [|e rest]]; try done. simpl in *.
    destruct (Atoi s) as [limitStart|]; [|done].
    destruct (Atoi e) as [limitEnd|]; [|done].
    apply IH; [lia|done].
Qed.

(** X10. The trailing options of the range commands are read from left to
    right and may be repeated. After options that were accepted, a further
    LIMIT with two integers replaces the offset and count of any earlier
    LIMIT (the last one wins), and for the by-score ranges a further
    WITHSCORES, wherever it stands, turns the scores on and leaves the LIMIT
    as it was. *)
Theorem trailing_options_last_limit_wins (args : list string)
    (withScores : bool) (limit lexLimit : option (Z * Z))
    (l s e w : string) (offset count : Z) :
  ToLower l = "limit" → Atoi s = Some offset → Atoi e = Some count →
  ToLower w = "withscores" →
  (scoreOptions args false None = Parsed (withScores, limit) →
   scoreOptions (args ++ [l; s; e]) false None
     = Parsed (withScores, Some (offset, count))
   ∧ scoreOptions (args ++ [w]) false None = Parsed (true, limit))
  ∧ (lexOptions args None = Parsed lexLimit →
     lexOptions (args ++ [l; s; e]) None = Parsed (Some (offset, count))).
Proof.
  intros Hl Hs He Hw. split.
  - intros Hargs. split.
    + rewrite (scoreOptions_app _ _ _ _ _ _ Hargs). simpl.
      by rewrite Hl, Hs, He.
    + rewrite (scoreOptions_app _ _ _ _ _ _ Hargs). simpl.
      by rewrite Hw.
  - intros Hargs. rewrite (lexOptions_app _ _ _ _ Hargs). simpl.
    by rewrite Hl, Hs, He.
Qed.

End Options.

Lemma trailing_options_last_limit_wins_witness :
  @scoreOptions Sample.env (["LIMIT"; "0"; "1"; "WITHSCORES"] ++ ["limit"; "2"; "5"])
                false None
  = Parsed (true, Some (2, 5)).
Proof.
  destruct (@trailing_options_last_limit_wins Sample.env
              ["LIMIT"; "0"; "1"; "WITHSCORES"] true (Some (0, 1)) None
              "limit" "2" "5" "withscores" 2 5) as [Hscore _];
    [reflexivity..|].
  destruct Hscore as [Hlimit _]; [reflexivity|]. exact Hlimit.
Defined.

(** ** ZCOUNT and the by-score ranges *)

Section Count.
Context `{GoEnv}.

Lemma elemsReply_members (elems : list ssElem) :
  elemsReply false elems
  = RLen (Z.of_nat (length elems)) :: ((λ e, RBulk (member e)) <$> elems).
Proof.
  unfold elemsReply. cbv zeta. f_equal.
Qed.

(** X11. On a key that holds a sorted set, ZCOUNT answers the number of
    members that ZRANGEBYSCORE returns for the same two bounds, and that
    ZREVRANGEBYSCORE returns, in reverse order, when given the bounds the
    other way round; the array header of both equals the number of members
    that follow it. *)
Theorem zcount_agrees_with_zrangebyscore (key a b : string) (r : scoreRange)
    (st : State) :
  let db := getDB (selectedDB st) st in
  let E := withSSRange (zelements db key)
             (sr_min r) (sr_minIncl r) (sr_max r) (sr_maxIncl r) in
  let n := Z.of_nat (length E) in
  zcountArgs [key; a; b] = Parsed r →
  db_exists db key = true →
  db_t db key = "zset" →
  replies (cmdZcount [key; a; b] st) = replies st ++ [RInt n]
  ∧ replies (makeCmdZrangebyscore "zrangebyscore" false [key; a; b] st)
    = replies st ++ RLen n :: ((λ e, RBulk (member e)) <$> E)
  ∧ replies (makeCmdZrangebyscore "zrevrangebyscore" true [key; b; a] st)
    = replies st ++ RLen n :: ((λ e, RBulk (member e)) <$> reverse E).
Proof.
  intros db E n Hargs Hex Hty.
  assert (∃ mn mnI mx mxI,
            parseFloatRange a = Some (mn, mnI) ∧ parseFloatRange b = Some (mx, mxI)
            ∧ r = mkScoreRange key mn mnI mx mxI)
    as (mn & mnI & mx & mxI & Ha & Hb & ->).
  { unfold zcountArgs in Hargs.
    destruct (parseFloatRange a) as [[mn mnI]|]; [|done].
    destruct (parseFloatRange b) as [[mx mxI]|]; [|done].
    injection Hargs as <-. by exists mn, mnI, mx, mxI. }
  simpl in E. split; [|split].
  - unfold cmdZcount, zcountArgs. rewrite Ha, Hb.
    unfold handle, withTx. fold (enter st). unfold zcountBody.
    change (getDB (selectedDB st) (enter st)) with db. cbn [sr_key].
    rewrite Hex, Hty. simpl. do 3 f_equal.
  - unfold makeCmdZrangebyscore, zrangebyscoreArgs. rewrite Ha, Hb. simpl.
    unfold handle, withTx. rewrite zrangebyscoreBody_reply by done.
    rewrite replies_writes. cbn [sq_withScores]. by rewrite elemsReply_members.
  - unfold makeCmdZrangebyscore, zrangebyscoreArgs. rewrite Ha, Hb. simpl.
    unfold handle, withTx. rewrite zrangebyscoreBody_reply by done.
    rewrite replies_writes. cbn [sq_withScores]. rewrite elemsReply_members.
    unfold zrangebyscoreElems. cbn [sq_limit sq_range sr_key].
    rewrite zrangebyscoreRange_reverse.
    change (getDB (selectedDB st) (enter st)) with db. fold E.
    by rewrite length_reverse.
Qed.

End Count.

Lemma zcount_agrees_with_zrangebyscore_witness :
  replies (Sample.run ZCOUNT ["z"; "(1"; "3"] Sample.st0) = [RInt 2]
  ∧ replies (Sample.run ZRANGEBYSCORE ["z"; "(1"; "3"] Sample.st0)
    = [RLen 2; RBulk "b"; RBulk "c"]
  ∧ replies (Sample.run ZREVRANGEBYSCORE ["z"; "3"; "(1"] Sample.st0)
    = [RLen 2; RBulk "c"; RBulk "b"].
Proof.
  apply (@zcount_agrees_with_zrangebyscore Sample.env "z" "(1" "3"
           (mkScoreRange "z" 1 false 3 true) Sample.st0); reflexivity.
Defined.

(** ** What the handlers leave alone *)

Lemma foldl_keeps_proj {B C} (proj : State → C) (f : State → B → State)
    (l : list B) (st : State) :
  (∀ st b, proj (f st b) = proj st) → proj (foldl f st l) = proj st.
Proof.
  intros Hf. revert st. induction l as [|b l IH]; intros st; [done|].
  simpl. by rewrite IH.
Qed.

Lemma foldl_replies_extend {B} (f : State → B → State) (l : list B) (st : State) :
  (∀ st b, ∃ rs, replies (f st b) = replies st ++ rs) →
  ∃ rs, replies (foldl f st l) = replies st ++ rs.
Proof.
  intros Hf. revert st. induction l as [|b l IH]; intros st.
  - exists []. by rewrite app_nil_r.
  - simpl. destruct (IH (f st b)) as [rs Hrs]. destruct (Hf st b) as [rs' Hrs'].
    exists (rs' ++ rs). by rewrite Hrs, Hrs', app_assoc.
Qed.

Section Frame.
Context `{GoEnv}.

Ltac open_handler v rargs :=
  destruct v;
  unfold commandsSortedSet, cmdZadd, cmdZcard, cmdZcount, makeCmdZrange,
    cmdZrangebylex, makeCmdZrangebyscore, makeCmdZrank, cmdZrem, cmdZscore,
    handle;
  let a := fresh "a" in
  let d := fresh "d" in
  let msg := fresh "msg" in
  match goal with |- context [match ?p with Parsed _ => _ | Malformed _ _ => _ end] =>
    destruct p as [a|d msg] end;
  [ unfold withTx, zaddBody, zcardBody, zcountBody, zrangeBody, zrangebylexBody,
      zrangebyscoreBody, zrankBody, zremBody, zscoreBody, writeMembers;
    try (destruct a);
    repeat match goal with
    | |- context [if ?c then _ else _] => destruct c
    | |- context [match ?c with _ => _ end] => destruct c
    | |- context [let '(_, _) := ?c in _] => destruct c
    end
  | destruct d ].

(** The server's address and the selected database are never changed. *)
Lemma handlers_keep_server (v : verb) (rargs : list string) (st : State) :
  selectedDB (commandsSortedSet v rargs st) = selectedDB st
  ∧ srvIP (commandsSortedSet v rargs st) = srvIP st
  ∧ srvPort (commandsSortedSet v rargs st) = srvPort st.
Proof.
  open_handler v rargs; try done.
  all: repeat match goal with
       | |- context [?pr (foldl ?f ?s ?l)] =>
           rewrite (foldl_keeps_proj pr f l s) by by intros
       end; done.
Qed.

(** Only ZADD and ZREM write to the databases. *)
Lemma readers_keep_dbs (v : verb) (rargs : list string) (st : State) :
  v ≠ ZADD → v ≠ ZREM → dbs (commandsSortedSet v rargs st) = dbs st.
Proof.
  intros Hadd Hrem. open_handler v rargs; try done.
  all: match goal with
       | |- dbs (foldl ?f ?s ?l) = _ =>
           rewrite (foldl_keeps_proj dbs f l s); [done|by intros]
       end.
Qed.

Lemma writers_keep_other_dbs (v : verb) (rargs : list string) (st : State) (i : Z) :
  i ≠ selectedDB st →
  dbs (commandsSortedSet v rargs st) !! i = dbs st !! i.
Proof.
  intros Hi.
  destruct v; try (by rewrite readers_keep_dbs).
  all: unfold commandsSortedSet, cmdZadd, cmdZrem, handle;
    match goal with |- context [match ?p with Parsed _ => _ | Malformed _ _ => _ end] =>
      destruct p as [[key a]|d msg] end;
    try (by destruct d);
    unfold withTx, zaddBody, zremBody;
    repeat match goal with
    | |- context [if ?c then _ else _] => destruct c
    end; try done; simpl; by rewrite lookup_insert_ne.
Qed.

(** Every handler writes at least one reply, after those already written. *)
Lemma handlers_reply (v : verb) (rargs : list string) (st : State) :
  ∃ r rs, replies (commandsSortedSet v rargs st) = replies st ++ r :: rs.
Proof.
  open_handler v rargs; simpl; eauto.
  all: match goal with
       | |- ∃ r rs, replies (foldl ?f ?s ?l) = _ =>
           destruct (foldl_replies_extend f l s) as [rs Hrs];
           [ intros st0 b; simpl; eexists; rewrite <- ?app_assoc; reflexivity
           | rewrite Hrs; simpl; eexists _, _; rewrite <- app_assoc; reflexivity ]
       end.
Qed.

End Frame.

Section FrameTheorems.
Context `{GoEnv}.

(** X12. Whatever its arguments, a sorted-set handler writes at least one
    reply after those already written and never changes the selected
    database index or the server's address; the databases other than the
    selected one keep their contents, and every handler other than ZADD and
    ZREM leaves all databases exactly as they were. *)
Theorem handlers_reply_and_keep_databases (v : verb) (rargs : list string)
    (st : State) :
  let st' := commandsSortedSet v rargs st in
  (∃ r rs, replies st' = replies st ++ r :: rs)
  ∧ selectedDB st' = selectedDB st
  ∧ srvIP st' = srvIP st
  ∧ srvPort st' = srvPort st
  ∧ (∀ i, i ≠ selectedDB st → dbs st' !! i = dbs st !! i)
  ∧ (v ≠ ZADD → v ≠ ZREM → dbs st' = dbs st).
Proof.
  intros st'. subst st'.
  destruct (handlers_keep_server v rargs st) as (Hsel & Hip & Hport).
  split; [apply handlers_reply|]. repeat split; try done.
  - intros i Hi. by apply writers_keep_other_dbs.
  - apply readers_keep_dbs.
Qed.

Ltac served_replies :=
  unfold cmdClusterSlots, cmdClusterKeySlot, cmdClusterNodes, withTx; simpl;
  rewrite <- ?app_assoc; simpl;
  eexists _, _; split; [reflexivity|];
  let msg := fresh "msg" in
  let Hin := fresh "Hin" in
  intros msg Hin;
  repeat (apply elem_of_cons in Hin as [Hin|Hin]; [done|]);
  by apply elem_of_nil in Hin.

(** X13. CLUSTER either runs one of its three stubs, entering the atomic
    section once without touching the dirty flag, or rejects the call: it
    then writes one error that quotes the arguments joined by spaces, sets
    the dirty flag and does not enter the atomic section. A call with no
    argument or with more than two is always rejected, and no call changes
    the databases. *)
Theorem cluster_dispatch_outcomes (cmd : string) (args : list string) (st : State) :
  let st' := cmdCluster cmd args st in
  let rejected :=
    replies st' = replies st
                  ++ [RError ("ERR 'CLUSTER " +:+ String.concat " " args
                              +:+ "' not supported")]
    ∧ dirty st' = true ∧ txEntered st' = txEntered st in
  let served :=
    (∃ r rs, replies st' = replies st ++ r :: rs ∧ ∀ msg, RError msg ∉ r :: rs)
    ∧ dirty st' = dirty st ∧ txEntered st' = S (txEntered st) in
  dbs st' = dbs st
  ∧ (served ∨ rejected)
  ∧ (length args ≠ 1%nat → length args ≠ 2%nat → rejected).
Proof.
  intros st' rejected served. subst st' rejected served.
  unfold cmdCluster.
  destruct ((length args =? 1)%nat && String.eqb (ToUpper (hd "" args)) "SLOTS")
    eqn:Hslots.
  { apply andb_prop in Hslots as [Hlen%Nat.eqb_eq _].
    split; [done|]. split; [|lia]. left. split; [|done].
    served_replies. }
  destruct ((length args =? 2)%nat && String.eqb (ToUpper (hd "" args)) "KEYSLOT")
    eqn:Hkeyslot.
  { apply andb_prop in Hkeyslot as [Hlen%Nat.eqb_eq _].
    split; [done|]. split; [|lia]. left. split; [|done].
    served_replies. }
  destruct ((length args =? 1)%nat && String.eqb (ToUpper (hd "" args)) "NODES")
    eqn:Hnodes.
  { apply andb_prop in Hnodes as [Hlen%Nat.eqb_eq _].
    split; [done|]. split; [|lia]. left. split; [|done].
    served_replies. }
  split; [done|]. split; [by right|done].
Qed.

End FrameTheorems.

Section ZaddChecks.
Context `{GoEnv}.

Lemma zaddElems_None (args : list string) :
  ∀ elems,
    zaddElems args elems = None
    ↔ Exists (λ s, ParseFloat s = None) (callScores args).
Proof.
  induction args as [| |s m args IH] using pair_ind; intros elems.
  - simpl. split; [done|]. intros Hex. by apply Exists_nil in Hex.
  - simpl. split; [done|]. intros Hex. by apply Exists_nil in Hex.
  - cbn [zaddElems callScores]. rewrite Exists_cons.
    destruct (ParseFloat s) as [sc|] eqn:Hs.
    + rewrite IH. split; [by right|]. by intros [?|?].
    + split; [by left|done].
Qed.

(** X14. The checks of ZADD come in a fixed order and each one ends the call
    before the atomic section: fewer than three arguments give the
    wrong-number error; otherwise an odd number of arguments after the key
    gives the syntax error, whatever the scores are; otherwise one score that
    does not parse, at any position, gives the float error, so that the
    pairs before it are not stored. Each of the three sets the dirty flag and
    changes nothing else. Only a call that passes all three enters the
    atomic section. A call without any argument gets the wrong-number error
    as well. *)
Theorem zadd_checks_in_order (key : string) (args : list string) (st : State) :
  let rargs := key :: args in
  let bad := Exists (λ s, ParseFloat s = None) (callScores args) in
  let fails msg := cmdZadd rargs st = WriteErrorString msg (setDirty st) in
  ((length rargs < 3)%nat → fails (wrongNumber "zadd"))
  ∧ ((3 ≤ length rargs)%nat → (length args mod 2)%nat ≠ 0%nat →
     fails msgSyntaxError)
  ∧ ((3 ≤ length rargs)%nat → (length args mod 2)%nat = 0%nat → bad →
     fails "ERR value is not a valid float")
  ∧ ((3 ≤ length rargs)%nat → (length args mod 2)%nat = 0%nat → ¬ bad →
     txEntered (cmdZadd rargs st) = S (txEntered st)
     ∧ dirty (cmdZadd rargs st) = dirty st)
  ∧ cmdZadd [] st = WriteErrorString (wrongNumber "zadd") (setDirty st).
Proof.
  intros rargs bad fails. subst rargs bad fails.
  unfold cmdZadd, zaddArgs.
  split; [|split; [|split; [|split; [|reflexivity]]]].
  - intros Hlen. apply Nat.ltb_lt in Hlen. by rewrite Hlen.
  - intros Hlen Hodd.
    apply Nat.ltb_ge in Hlen. rewrite Hlen.
    apply Nat.eqb_neq in Hodd. by rewrite Hodd.
  - intros Hlen Heven Hbad.
    apply Nat.ltb_ge in Hlen. rewrite Hlen.
    apply Nat.eqb_eq in Heven. rewrite Heven.
    apply (zaddElems_None args ∅) in Hbad. by rewrite Hbad.
  - intros Hlen Heven Hgood.
    apply Nat.ltb_ge in Hlen. rewrite Hlen.
    apply Nat.eqb_eq in Heven. rewrite Heven.
    destruct (zaddElems args ∅) as [elems|] eqn:Helems;
      [|by apply zaddElems_None in Helems].
    simpl. unfold withTx, zaddBody.
    by destruct (_ && _).
Qed.

End ZaddChecks.

Lemma zrem_zsetOf (db : RedisDB) (key mem : string) :
  zsetOf (zrem db key mem).1 key = delete mem (zsetOf db key).
Proof.
  unfold zrem.
  destruct (zsetOf db key !! mem) as [sc|] eqn:Hmem; simpl.
  - destruct (decide (delete mem (zsetOf db key) = ∅)) as [Hempty|Hne].
    + rewrite Hempty. unfold zsetOf. by rewrite lookup_delete_eq.
    + unfold zsetOf at 1. by rewrite lookup_insert_eq.
  - symmetry. by apply delete_id.
Qed.

Lemma zrem_existed (db : RedisDB) (key mem : string) :
  (zrem db key mem).2 = zexists db key mem.
Proof.
  unfold zrem, zexists. by destruct (zsetOf db key !! mem).
Qed.

Lemma zexists_after_zrem (db : RedisDB) (key mem m : string) :
  zexists (zrem db key mem).1 key m
  = zexists db key m && negb (String.eqb m mem).
Proof.
  unfold zexists at 1. rewrite zrem_zsetOf.
  destruct (String.eqb_spec m mem) as [->|Hne].
  - rewrite lookup_delete_eq. by rewrite andb_false_r.
  - rewrite lookup_delete_ne by done. unfold zexists.
    by rewrite andb_true_r.
Qed.

Lemma filter_length_ext {A} (p q : A → bool) (l : list A) :
  (∀ x, x ∈ l → p x = q x) →
  length (filter (λ x, p x = true) l) = length (filter (λ x, q x = true) l).
Proof.
  induction l as [|x l IH]; intros Hpq; [done|].
  rewrite !filter_cons.
  pose proof (Hpq x (list_elem_of_here x l)) as Hx.
  assert (length (filter (λ x, p x = true) l)
          = length (filter (λ x, q x = true) l)) as Hl.
  { apply IH. intros y Hy. apply Hpq. by apply list_elem_of_further. }
  destruct (decide (p x = true)), (decide (q x = true)); simpl; congruence.
Qed.

Lemma countNew_ext (p q : string → bool) (l : list string) :
  (∀ x, x ∈ l → p x = q x) → countNew p l = countNew q l.
Proof.
  intros Hpq. unfold countNew. f_equal. apply filter_length_ext.
  intros x Hx. apply Hpq. by apply elem_of_remove_dups.
Qed.

Lemma filter_length_without (p : string → bool) (x : string) (l : list string) :
  NoDup l →
  length (filter (λ m, p m = true) l)
  = ((if decide (x ∈ l) then if p x then 1 else 0 else 0)
     + length (filter (λ m, p m && negb (String.eqb m x) = true) l))%nat.
Proof.
  induction 1 as [|y l Hy Hnd IH]; [done|].
  rewrite !filter_cons.
  assert (x ∈ y :: l ↔ y = x ∨ x ∈ l) as Hcons.
  { rewrite elem_of_cons. intuition congruence. }
  destruct (String.eqb_spec y x) as [->|Hne].
  - rewrite andb_false_r.
    destruct (decide (x ∈ l)) as [?|_]; [done|].
    destruct (decide (x ∈ x :: l)) as [_|Hnin]; [|by destruct Hnin; left].
    destruct (p x); simpl; repeat case_decide; simpl in *;
      try congruence; lia.
  - rewrite andb_true_r.
    destruct (decide (x ∈ l)) as [Hin|Hnin];
      destruct (decide (x ∈ y :: l)) as [Hin'|Hnin'];
      try (exfalso; tauto);
      destruct (decide (p y = true)); simpl; lia.
Qed.

Lemma countNew_cons (p : string → bool) (x : string) (l : list string) :
  countNew p (x :: l)
  = (if p x then 1 else 0)
    + countNew (λ m, p m && negb (String.eqb m x)) l.
Proof.
  unfold countNew. cbn [remove_dups].
  destruct (decide_rel elem_of x l) as [Hin|Hnin].
  - rewrite (filter_length_without p x) by apply NoDup_remove_dups.
    rewrite decide_True by (by apply elem_of_remove_dups).
    destruct (p x); lia.
  - pose proof (filter_length_without p x (remove_dups l)
                  (NoDup_remove_dups l)) as Hw.
    rewrite decide_False in Hw by (by rewrite elem_of_remove_dups).
    rewrite filter_cons.
    destruct (p x); simpl; repeat case_decide; simpl; try congruence; lia.
Qed.

Lemma zremAll_loop (key : string) (members : list string) :
  ∀ (db : RedisDB) (c : Z),
    ∃ db',
      foldl (λ acc mem,
               let r := zrem acc.1 key mem in
               (r.1, if r.2 then acc.2 + 1 else acc.2))
            (db, c) members
      = (db', c + countNew (zexists db key) members)
      ∧ (∀ m, m ∈ members → zsetOf db' key !! m = None)
      ∧ (∀ m, m ∉ members → zsetOf db' key !! m = zsetOf db key !! m).
Proof.
  induction members as [|x members IH]; intros db c.
  - exists db. simpl. split; [unfold countNew; simpl; f_equal; lia|].
    split; [|done]. intros m Hm. by apply elem_of_nil in Hm.
  - destruct (IH (zrem db key x).1
                 (if (zrem db key x).2 then c + 1 else c))
      as (db' & Hfold & Hgone & Hkept).
    exists db'. split; [|split].
    + etrans; [exact Hfold|]. f_equal.
      rewrite countNew_cons, zrem_existed.
      rewrite (countNew_ext _ (λ m, zexists db key m && negb (String.eqb m x)))
        by (intros m _; apply zexists_after_zrem).
      destruct (zexists db key x); lia.
    + intros m Hm.
      destruct (decide (m ∈ members)) as [Hin|Hnin]; [by apply Hgone|].
      rewrite Hkept by done. rewrite zrem_zsetOf.
      apply elem_of_cons in Hm as [->|Hm]; [|done].
      apply lookup_delete_eq.
    + intros m Hm.
      rewrite Hkept by (intros Hin; apply Hm; by apply list_elem_of_further).
      rewrite zrem_zsetOf. apply lookup_delete_ne.
      intros ->. apply Hm, list_elem_of_here.
Qed.

Section Zrem.
Context `{GoEnv}.

(** X15. ZREM on an existing sorted set with one or more members, some of
    them possibly listed several times: the reply is the number of distinct
    listed members that the set held before the call, every listed member is
    absent afterwards, and every other member keeps its score. The call
    enters the atomic section and writes that one integer. *)
Theorem zrem_duplicate_members (key : string) (members : list string)
    (st : State) :
  let db := getDB (selectedDB st) st in
  let st' := cmdZrem (key :: members) st in
  let db' := getDB (selectedDB st) st' in
  members ≠ [] →
  db_exists db key = true →
  db_t db key = "zset" →
  replies st' = replies st ++ [RInt (countNew (zexists db key) members)]
  ∧ txEntered st' = S (txEntered st)
  ∧ (∀ m, m ∈ members → zexists db' key m = false)
  ∧ (∀ m, m ∉ members → zsetOf db' key !! m = zsetOf db key !! m).
Proof.
  intros db st' db' Hne Hex Ht. subst st' db'.
  destruct members as [|mem members]; [done|].
  unfold cmdZrem. cbn [zremArgs handle]. unfold withTx. fold (enter st).
  unfold zremBody.
  change (getDB (selectedDB st) (enter st)) with db.
  rewrite Hex, Ht.
  change (negb true) with false. cbv iota.
  change (negb (String.eqb "zset" "zset")) with false. cbv iota.
  unfold zremAll.
  destruct (zremAll_loop key (mem :: members) db 0)
    as (db' & Hfold & Hgone & Hkept).
  set (r := foldl _ (db, 0) (mem :: members)).
  assert (r = (db', 0 + countNew (zexists db key) (mem :: members))) as Hr
    by exact Hfold.
  clearbody r. subst r. cbn [fst snd].
  assert (getDB (selectedDB st)
            (WriteInt (0 + countNew (zexists db key) (mem :: members))
               (putDB (selectedDB st) db' (enter st)))
          = db') as Hdb.
  { unfold getDB. simpl. by rewrite lookup_insert_eq. }
  split; [done|].
  split; [done|].
  split.
  - intros m Hm. rewrite Hdb. unfold zexists. by rewrite Hgone.
  - intros m Hm. rewrite Hdb. by apply Hkept.
Qed.

End Zrem.

Lemma zrem_duplicate_members_witness :
  let st' := Sample.run ZREM ["z"; "a"; "x"; "a"; "c"] Sample.st0 in
  replies st' = [RInt 2]
  ∧ zexists (getDB 0 st') "z" "a" = false
  ∧ zsetOf (getDB 0 st') "z" !! "b" = Some 2%float.
Proof.
  destruct (@zrem_duplicate_members Sample.env "z" ["a"; "x"; "a"; "c"]
              Sample.st0) as (Hreply & _ & Hgone & Hkept).
  - done.
  - reflexivity.
  - reflexivity.
  - split; [exact Hreply|]. split.
    + apply (Hgone "a"). apply list_elem_of_here.
    + apply (Hkept "b"). intros Hb.
      repeat (apply elem_of_cons in Hb as [Hb|Hb]; [done|]).
      by apply elem_of_nil in Hb.
Defined.

Lemma zsetOf_lookup_Some (db : RedisDB) (key m : string) (sc : float) :
  zsetOf db key !! m = Some sc →
  db_exists db key = true ∧ db_t db key = "zset"
  ∧ zexists db key m = true ∧ zscore db key m = sc.
Proof.
  intros Hm. unfold db_exists, db_t, zexists, zscore. rewrite Hm.
  unfold zsetOf in Hm.
  destruct (db !! key) as [[| | | |ss]|]; try by rewrite lookup_empty in Hm.
  done.
Qed.

Section ReadBack.
Context `{GoEnv}.
Hypothesis mapRange_entries : ∀ m, mapRange m ≡ₚ map_to_list m.

(** What a well-formed ZADD on a key that is absent or holds a sorted set
    leaves behind: one integer reply written inside the atomic section, and
    in the selected database every member of the call with the last score
    given for it. *)
Lemma cmdZadd_stores (key : string) (args : list string) (st : State) :
  let db := getDB (selectedDB st) st in
  checkArgs ZADD (key :: args) = Parsed key →
  db_exists db key = false ∨ db_t db key = "zset" →
  ∃ n db',
    cmdZadd (key :: args) st
    = WriteInt n (putDB (selectedDB st) db' (enter st))
    ∧ ∀ m, zsetOf db' key !! m
           = match lastScoreOf args m with
             | Some sc => Some sc
             | None => zsetOf db key !! m
             end.
Proof.
  intros db Hargs Htype.
  unfold checkArgs in Hargs. apply keyOf_Parsed in Hargs as ([k elems] & Hargs & _).
  assert (k = key ∧ zaddElems args ∅ = Some elems) as [-> Hel].
  { pose proof Hargs as Hargs'. unfold zaddArgs in Hargs'.
    destruct (_ <? _)%nat; [done|]. destruct (negb _); [done|].
    destruct (zaddElems args ∅); [|done]. by injection Hargs' as -> ->. }
  set (l := mapRange elems).
  assert (NoDup l.*1) as Hnodup.
  { subst l. rewrite (mapRange_entries elems). apply NoDup_fst_map_to_list. }
  assert ((list_to_map l : gmap string float) = elems) as Hmap.
  { rewrite <- (list_to_map_to_list elems).
    apply list_to_map_proper; [done|]. apply mapRange_entries. }
  destruct (zaddAll_loop key db l db 0 Hnodup) as [Hlook _]; [done|].
  cbv zeta in Hlook. rewrite Hmap in Hlook.
  exists (zaddAll key l db).2, (zaddAll key l db).1. split.
  - unfold cmdZadd. rewrite Hargs. unfold handle, withTx, zaddBody.
    fold (enter st).
    change (getDB (selectedDB st) (enter st)) with db.
    assert (db_exists db key && negb (String.eqb (db_t db key) "zset") = false)
      as ->; [|done].
    destruct Htype as [->| ->]; [done|]. by rewrite andb_false_r.
  - intros m. unfold zaddAll. rewrite Hlook.
    pose proof (zaddElems_lookup _ _ _ Hel m) as Hm.
    rewrite lookup_empty in Hm. rewrite Hm.
    by destruct (lastScoreOf args m).
Qed.

(** X16. ZSCORE reads back what ZADD stored: after a well-formed ZADD on a
    key that is absent or holds a sorted set, in whatever order the loop
    visited the pairs, ZSCORE of a member listed in that call enters the
    atomic section and writes the formatted last score given for that member
    in argument order; it answers neither nil nor the wrong-type error. *)
Theorem zscore_reads_back_zadd (key m : string) (args : list string)
    (st : State) :
  let db := getDB (selectedDB st) st in
  let st1 := cmdZadd (key :: args) st in
  checkArgs ZADD (key :: args) = Parsed key →
  db_exists db key = false ∨ db_t db key = "zset" →
  m ∈ callMembers args →
  ∃ sc, lastScoreOf args m = Some sc
        ∧ cmdZscore [key; m] st1 = WriteString (formatFloat sc) (enter st1).
Proof.
  intros db st1 Hargs Htype Hm. subst st1.
  destruct (cmdZadd_stores key args st Hargs Htype) as (n & db' & -> & Hlook).
  pose proof Hargs as Hargs'.
  unfold checkArgs in Hargs'.
  apply keyOf_Parsed in Hargs' as ([k elems] & Hargs' & _).
  assert (zaddElems args ∅ = Some elems) as Hel.
  { unfold zaddArgs in Hargs'.
    destruct (_ <? _)%nat; [done|]. destruct (negb _); [done|].
    destruct (zaddElems args ∅); [|done]. by injection Hargs' as -> ->. }
  apply (lastScoreOf_callMembers _ _ _ Hel) in Hm as [sc Hsc].
  exists sc. split; [done|].
  specialize (Hlook m). rewrite Hsc in Hlook.
  apply zsetOf_lookup_Some in Hlook as (Hex & Ht & Hmem & Hscore).
  unfold cmdZscore. cbn [zscoreArgs handle]. unfold withTx.
  set (st1 := WriteInt n (putDB (selectedDB st) db' (enter st))).
  fold (enter st1). unfold zscoreBody.
  assert (getDB (selectedDB st1) (enter st1) = db') as ->.
  { unfold getDB. simpl. by rewrite lookup_insert_eq. }
  rewrite Hex, Ht, Hmem, Hscore. reflexivity.
Qed.

End ReadBack.

Lemma zscore_reads_back_zadd_witness :
  let st1 := Sample.run ZADD ["new"; "1"; "a"; "7"; "a"] Sample.st0 in
  replies (Sample.run ZSCORE ["new"; "a"] st1) = [RInt 1; RBulk "7"].
Proof.
  destruct (@zscore_reads_back_zadd Sample.env (λ m, reflexivity _)
              "new" "a" ["1"; "a"; "7"; "a"] Sample.st0)
    as (sc & Hsc & Hscore).
  - reflexivity.
  - left. reflexivity.
  - apply list_elem_of_here.
  - intros st1. subst st1. unfold Sample.run, commandsSortedSet.
    rewrite Hscore. injection Hsc as <-. reflexivity.
Defined.

(** ** [sort.Strings] *)

Lemma insertString_elem (s m : string) (l : list string) :
  m ∈ insertString s l ↔ m = s ∨ m ∈ l.
Proof.
  induction l as [|x l IH]; simpl.
  - rewrite list_elem_of_singleton, elem_of_nil. tauto.
  - destruct (String.ltb s x).
    + by rewrite elem_of_cons.
    + rewrite !elem_of_cons, IH. tauto.
Qed.

Lemma insertString_sorted (s : string) (l : list string) :
  lexSorted l → lexSorted (insertString s l).
Proof.
  unfold lexSorted. induction 1 as [|x l Hsorted IH Hx]; simpl.
  - repeat constructor.
  - destruct (String.ltb s x) eqn:Hsx.
    + assert (String.leb s x = true) as Hle.
      { apply string_leb_le. left. by apply string_ltb_lt. }
      constructor; [by constructor|].
      constructor; [done|].
      eapply Forall_impl; [exact Hx|].
      intros y Hy. by eapply string_leb_trans.
    + constructor; [done|].
      apply Forall_forall. intros y [->|Hy]%insertString_elem.
      * rewrite string_ltb_leb in Hsx. by apply negb_false_iff in Hsx.
      * rewrite Forall_forall in Hx. by apply Hx.
Qed.

Lemma sortStrings_sorted (l : list string) : lexSorted (sortStrings l).
Proof.
  induction l as [|x l IH]; simpl; [constructor|].
  by apply insertString_sorted.
Qed.

Lemma sortStrings_elem (m : string) (l : list string) :
  m ∈ sortStrings l ↔ m ∈ l.
Proof.
  induction l as [|x l IH]; simpl; [done|].
  by rewrite insertString_elem, elem_of_cons, IH.
Qed.

Lemma sortStrings_length (l : list string) : length (sortStrings l) = length l.
Proof.
  induction l as [|x l IH]; simpl; [done|]. rewrite <- IH.
  generalize (sortStrings l). intros l'.
  induction l' as [|y l' IH']; simpl; [done|].
  destruct (String.ltb x y); simpl; [done|]. by rewrite IH'.
Qed.

Section LexCommand.
Context `{GoEnv}.

(** X17. A well-formed ZRANGEBYLEX without LIMIT, on a key that holds a
    sorted set whose snapshot lists the members in whatever order, and with
    ends other than the impossible ones (max ["-"], min ["+"]), writes an
    array whose members are in ascending bytewise order; every member of the
    set inside the range is among them, and each of them is a member of the
    set within the maximum bound. With the range from ["-"] to ["+"] as many
    members are written as the set has. *)
Theorem zrangebylex_sorted_complete (rargs : list string) (a : lexRange)
    (st : State) :
  let db := getDB (selectedDB st) st in
  let members := zmembers db (lr_key a) in
  zrangebylexArgs rargs = Parsed a →
  lr_limit a = None → lr_max a ≠ "-" → lr_min a ≠ "+" →
  db_exists db (lr_key a) = true →
  db_t db (lr_key a) = "zset" →
  ∃ out,
    cmdZrangebylex rargs st
    = writes (RLen (Z.of_nat (length out)) :: (RBulk <$> out)) (enter st)
    ∧ lexSorted out
    ∧ (∀ m, m ∈ members →
            inLexRange (lr_min a) (lr_minIncl a) (lr_max a) (lr_maxIncl a) m = true →
            m ∈ out)
    ∧ (∀ m, m ∈ out → m ∈ members ∧ lexMaxOk (lr_max a) (lr_maxIncl a) m = true)
    ∧ (lr_min a = "-" → lr_max a = "+" → length out = length members).
Proof.
  intros db members Hargs Hlimit Hmax%String.eqb_neq Hmin%String.eqb_neq Hex Hty.
  exists (zrangebylexMembers a members).
  split; [exact (cmdZrangebylex_writes rargs a st Hargs Hex Hty)|].
  unfold zrangebylexMembers. rewrite Hlimit. cbv zeta.
  pose proof (sortStrings_sorted members) as Hsorted.
  destruct (lexMinScan_sorted (sortStrings members) (lr_min a) (lr_minIncl a)
              Hsorted) as (Hstage & (pre & post & Hseg) & _).
  unfold withLexRange. rewrite Hmax, Hmin. cbv zeta. cbn [orb].
  split; [|split; [|split]].
  - rewrite withLexRange_max_sorted by done.
    by apply filter_StronglySorted.
  - rewrite withLexRange_max_sorted by done.
    intros m Hm [Hmn Hmx]%andb_prop. apply list_elem_of_filter. split; [done|].
    rewrite withLexRange_min_sorted; [|done|].
    + apply list_elem_of_filter. split; [done|]. by apply sortStrings_elem.
    + right. exists m. split; [|done]. by apply sortStrings_elem.
  - rewrite withLexRange_max_sorted by done.
    intros m [Hmx Hm]%list_elem_of_filter. split; [|done].
    apply sortStrings_elem. rewrite Hseg.
    apply elem_of_app. right. apply elem_of_app. by left.
  - intros -> ->. simpl. apply sortStrings_length.
Qed.

End LexCommand.

Lemma zrangebylex_sorted_complete_witness :
  let st := Sample.run ZADD ["q"; "1"; "b"; "2"; "a"] Sample.st0 in
  zmembers (getDB 0 st) "q" = ["b"; "a"]
  ∧ ∃ out,
      replies (Sample.run ZRANGEBYLEX ["q"; "-"; "+"] st)
      = [RInt 2; RLen (Z.of_nat (length out))] ++ (RBulk <$> out)
      ∧ lexSorted out ∧ "a" ∈ out ∧ length out = 2%nat.
Proof.
  intros st. split; [reflexivity|].
  destruct (@zrangebylex_sorted_complete Sample.env ["q"; "-"; "+"]
              (mkLexRange "q" "-" false "+" false None) st)
    as (out & Hout & Hsorted & Hin & _ & Hlen); try done.
  exists out. unfold Sample.run, commandsSortedSet.
  rewrite Hout, replies_writes. split; [done|]. split; [done|]. split.
  - apply (Hin "a"); [|reflexivity].
    apply list_elem_of_further, list_elem_of_here.
  - by rewrite Hlen.
Defined.

(** ** ZRANK and ZRANGE *)

Lemma write_inj (r1 r2 : reply) (st : State) :
  write r1 st = write r2 st → r1 = r2.
Proof.
  intros Heq. apply (f_equal replies) in Heq. simpl in Heq.
  by apply app_inj_tail in Heq as [_ ?].
Qed.

Lemma indexOf_lookup (m : string) (l : list string) (r : Z) :
  indexOf m l = Some r → 0 ≤ r ∧ l !! Z.to_nat r = Some m.
Proof.
  unfold indexOf. destruct (firstIndex (String.eqb m) l) as [i|] eqn:Hi; [|done].
  intros [= <-]. split; [lia|]. rewrite Nat2Z.id.
  destruct (firstIndex_Some _ _ _ Hi) as [_ (x & Hx & Hmx)].
  apply String.eqb_eq in Hmx as <-.
  rewrite <- (Nat.add_0_r i), <- lookup_drop. by rewrite Hx.
Qed.

Lemma zrangeMembers_at_index (rev : bool) (members : list string) (m : string)
    (r : Z) :
  0 ≤ r →
  (if rev then reverse members else members) !! Z.to_nat r = Some m →
  zrangeMembers rev members r r = [m].
Proof.
  intros Hr Hm. unfold zrangeMembers, reverseSlice.
  rewrite reverseInPlace_reverse.
  set (ms := if rev then reverse members else members) in *.
  pose proof (lookup_lt_Some _ _ _ Hm) as Hlt.
  assert (redisRange (Z.of_nat (length ms)) r r = (r, r + 1)) as ->.
  { unfold redisRange. split_tests; simpl; try (f_equal; lia); lia. }
  unfold slice. rewrite (drop_S _ _ _ Hm).
  replace (Z.to_nat (r + 1) - Z.to_nat r)%nat with 1%nat by lia.
  done.
Qed.

Section RankAndRange.
Context `{GoEnv}.

(** X18. ZRANGE reads back the member that ZRANK located: when ZRANK (or
    ZREVRANK) answers the integer [r] for a member, [r] is not negative and
    ZRANGE (or ZREVRANGE) of the same key from [r] to [r] writes exactly
    that one member. *)
Theorem zrange_at_rank_is_member (rev : bool) (cmdRank cmdRange key m s : string)
    (r : Z) (st : State) :
  makeCmdZrank cmdRank rev [key; m] st = WriteInt r (enter st) →
  Atoi s = Some r →
  0 ≤ r
  ∧ makeCmdZrange cmdRange rev [key; s; s] st
    = writes [RLen 1; RBulk m] (enter st).
Proof.
  intros Hrank Hs.
  unfold makeCmdZrank in Hrank. cbn [zrankArgs handle] in Hrank.
  unfold withTx in Hrank. fold (enter st) in Hrank. unfold zrankBody in Hrank.
  set (db := getDB (selectedDB st) (enter st)) in *.
  destruct (db_exists db key) eqn:Hex; cbn [negb] in Hrank;
    [|by apply write_inj in Hrank].
  destruct (String.eqb_spec (db_t db key) "zset") as [Ht|_]; cbn [negb] in Hrank;
    [|by apply write_inj in Hrank].
  destruct (zrank db key m (if rev then desc else asc)) as [r'|] eqn:Hz;
    [|by apply write_inj in Hrank].
  apply write_inj in Hrank. injection Hrank as ->.
  assert (0 ≤ r
          ∧ (if rev then reverse (zmembers db key) else zmembers db key)
            !! Z.to_nat r = Some m) as [Hr Hm].
  { destruct rev; by apply indexOf_lookup. }
  split; [done|].
  unfold makeCmdZrange. cbn [zrangeArgs]. rewrite Hs. cbn [handle].
  unfold withTx. fold (enter st).
  rewrite zrangeBody_reply by done. cbn [rr_key rr_start rr_end rr_withScores].
  fold db. by rewrite (zrangeMembers_at_index rev _ m r).
Qed.

End RankAndRange.

Lemma zrange_at_rank_is_member_witness :
  Sample.run ZREVRANGE ["z"; "2"; "2"] Sample.st0
  = writes [RLen 1; RBulk "a"] (enter Sample.st0).
Proof.
  apply (@zrange_at_rank_is_member Sample.env true "zrevrank" "zrevrange"
           "z" "a" "2" 2 Sample.st0).
  - reflexivity.
  - reflexivity.
Defined.
